(** * LLM screen automation tool: response extraction, action dispatch,
      engine lifecycle.

    A shallow embedding of [llm_cursor_tool.py].  Python text is a list of
    Unicode code points, Python objects that the code passes around are
    values of [pyval], exceptions are values of [exn], and the collaborators
    the tool talks to (logger, pointer driver, tray icon, worker threads,
    PIL images) are fields of explicit state records.

    The two standard-library services the extraction code calls, [json.loads]
    and [re.search], are modelled by executable definitions ([Json], [Re]):
    a decoder that follows the grammar accepted by Python's [json] module,
    with the two limits of the interpreter that make it raise something
    else than [JSONDecodeError] (the recursion guard of the scanner and the
    cap on the decimal digits of an integer), and a backtracking matcher
    with Python's priorities. *)

From Stdlib Require Import ZArith NArith List String Ascii Bool Lia.
From stdpp Require Import base list gmap.

Open Scope N_scope.

Set Warnings "-register-all".

(** ** Text *)

(** A Python [str]: a sequence of code points. *)
Abbreviation str := (list N).

(** The code point of an ASCII character, for writing literals. *)
Definition chr (a : ascii) : N := N_of_ascii a.

Fixpoint text (s : string) : list N :=
  match s with
  | EmptyString => []
  | String a s' => chr a :: text s'
  end.

Definition BACKTICK : N := 96.
Definition QUOTE : N := 34.
Definition BACKSLASH : N := 92.
Definition LBRACE : N := 123.
Definition RBRACE : N := 125.
Definition LBRACKET : N := 91.
Definition RBRACKET : N := 93.
Definition COMMA : N := 44.
Definition COLON : N := 58.
Definition NEWLINE : N := 10.

(** [s.startswith(p)], returning what follows the prefix. *)
Fixpoint strip_prefix (p s : list N) : option (list N) :=
  match p with
  | [] => Some s
  | a :: p' =>
      match s with
      | [] => None
      | b :: s' => if a =? b then strip_prefix p' s' else None
      end
  end.

(** ** Python values and exceptions *)

(** A float is kept as the text it was built from: [float(text)], or one of
    the three special constants the decoder accepts. *)
Inductive pyfloat :=
| FDec (literal : list N)
| FNaN
| FInf (negative : bool).

Inductive pyval :=
| PyNone
| PyBool (b : bool)
| PyInt (z : Z)
| PyFloat (f : pyfloat)
| PyStr (s : list N)
| PyList (l : list pyval)
| PyDict (d : list (list N * pyval)).

(** The exceptions that occur in the modelled code.  [External] stands for
    whatever a collaborator raises; [BaseOnly] for an exception outside the
    [Exception] hierarchy (KeyboardInterrupt, SystemExit). *)
Inductive exn :=
| JSONDecodeError
| AttributeError
| TypeError
| ValueError
| OverflowError
| RecursionError
| External (tag : nat)
| BaseOnly (tag : nat).

(** [isinstance(e, Exception)] *)
Definition is_Exception (e : exn) : bool :=
  match e with
  | BaseOnly _ => false
  | _ => true
  end.

Definition is_JSONDecodeError (e : exn) : bool :=
  match e with
  | JSONDecodeError => true
  | _ => false
  end.

(** The outcome of running a piece of Python code. *)
Inductive py (A : Type) :=
| Ret (a : A)
| Raise (e : exn).
Arguments Ret {A} a.
Arguments Raise {A} e.

(** ** Dictionaries (insertion ordered, as Python's) *)

Definition str_eqb (a b : list N) : bool := bool_decide (a = b).

Fixpoint dict_get (d : list (list N * pyval)) (k : list N) : option pyval :=
  match d with
  | [] => None
  | (k', v) :: d' => if str_eqb k k' then Some v else dict_get d' k
  end.

(** [d[k] = v]: an existing key keeps its position. *)
Fixpoint dict_set (d : list (list N * pyval)) (k : list N) (v : pyval)
  : list (list N * pyval) :=
  match d with
  | [] => [(k, v)]
  | (k', v') :: d' =>
      if str_eqb k k' then (k', v) :: d' else (k', v') :: dict_set d' k v
  end.

(** [dict(pairs)] *)
Definition dict_of_pairs (pairs : list (list N * pyval)) : list (list N * pyval) :=
  fold_left (fun d kv => dict_set d (fst kv) (snd kv)) pairs [].

(** ** Limits of the interpreter *)

(** The two settings of the interpreter that [json.loads] depends on.
    [recursion_room] is the number of nested objects and arrays the scanner
    can still enter when [json.loads] is called: what the recursion limit
    leaves above the calls in progress.  Only this nesting, which the text
    decides, is counted; the calls of the program itself, of a fixed depth,
    are taken to fit.  [int_max_str_digits] is the cap on the decimal
    digits of an integer that is built from text
    ([sys.get_int_max_str_digits()], 4300 unless changed; 0 means no
    cap). *)
Record limits := {
  recursion_room : nat;
  int_max_str_digits : nat
}.

(** ** [json.loads] *)
Module Json.

(** What a scanning function reports: a value and the text after it, a
    malformed document, an exception of the interpreter that is no decode
    error ([RecursionError], [ValueError]), or that the recursion budget of
    the model was used up ([Exhausted] never reaches [loads], see
    [scan_fuel]). *)
Inductive scan (A : Type) :=
| Scanned (a : A) (rest : list N)
| Malformed
| Refused (e : exn)
| Exhausted.
Arguments Scanned {A} a rest.
Arguments Malformed {A}.
Arguments Refused {A} e.
Arguments Exhausted {A}.

(** WHITESPACE: space, tab, line feed, carriage return *)
Definition is_ws (c : N) : bool :=
  (c =? 32) || (c =? 9) || (c =? 10) || (c =? 13).

Fixpoint skip_ws (s : list N) : list N :=
  match s with
  | c :: s' => if is_ws c then skip_ws s' else s
  | [] => []
  end.

Definition is_digit (c : N) : bool := (48 <=? c) && (c <=? 57).

Definition hex_digit (c : N) : option N :=
  if (48 <=? c) && (c <=? 57) then Some (c - 48)
  else if (97 <=? c) && (c <=? 102) then Some (c - 87)
  else if (65 <=? c) && (c <=? 70) then Some (c - 55)
  else None.

Definition hex4 (a b c d : N) : option N :=
  match hex_digit a, hex_digit b, hex_digit c, hex_digit d with
  | Some x, Some y, Some z, Some w => Some (((x * 16 + y) * 16 + z) * 16 + w)
  | _, _, _, _ => None
  end.

(** BACKSLASH table of the decoder *)
Definition unescape (c : N) : option N :=
  if c =? 34 then Some 34          (* quote *)
  else if c =? 92 then Some 92     (* backslash *)
  else if c =? 47 then Some 47     (* slash *)
  else if c =? 98 then Some 8      (* b: backspace *)
  else if c =? 102 then Some 12    (* f: form feed *)
  else if c =? 110 then Some 10    (* n: line feed *)
  else if c =? 114 then Some 13    (* r: carriage return *)
  else if c =? 116 then Some 9     (* t: tab *)
  else None.

Definition is_high_surrogate (u : N) : bool := (55296 <=? u) && (u <=? 56319).
Definition is_low_surrogate (u : N) : bool := (56320 <=? u) && (u <=? 57343).
Definition join_surrogates (hi lo : N) : N :=
  65536 + ((hi - 55296) * 1024 + (lo - 56320)).

(** [scanstring], strict mode, started after the opening quote; [acc] is
    the decoded text so far, reversed.  A high surrogate followed by a
    second escape that is a low surrogate is joined with it; a lone
    surrogate is kept. *)
Fixpoint scanstring (s : list N) (acc : list N) : scan (list N) :=
  match s with
  | [] => Malformed
  | c :: s1 =>
      if c =? QUOTE then Scanned (rev acc) s1
      else if c =? BACKSLASH then
        match s1 with
        | [] => Malformed
        | e :: s2 =>
            if e =? 117 then
              match s2 with
              | h1 :: h2 :: h3 :: h4 :: s6 =>
                  match hex4 h1 h2 h3 h4 with
                  | None => Malformed
                  | Some u =>
                      if is_high_surrogate u then
                        match s6 with
                        | b :: s7 =>
                            if b =? BACKSLASH then
                              match s7 with
                              | u' :: s8 =>
                                  if u' =? 117 then
                                    match s8 with
                                    | g1 :: g2 :: g3 :: g4 :: s12 =>
                                        match hex4 g1 g2 g3 g4 with
                                        | None => Malformed
                                        | Some u2 =>
                                            if is_low_surrogate u2
                                            then scanstring s12 (join_surrogates u u2 :: acc)
                                            else scanstring s6 (u :: acc)
                                        end
                                    | _ => Malformed
                                    end
                                  else scanstring s6 (u :: acc)
                              | [] => Malformed
                              end
                            else scanstring s6 (u :: acc)
                        | [] => Malformed
                        end
                      else scanstring s6 (u :: acc)
                  end
              | _ => Malformed
              end
            else
              match unescape e with
              | Some ch => scanstring s2 (ch :: acc)
              | None => Malformed
              end
        end
      else if c <? 32 then Malformed
      else scanstring s1 (c :: acc)
  end.

(** The longest run of decimal digits at the front. *)
Fixpoint span_digits (s : list N) : list N * list N :=
  match s with
  | c :: s' =>
      if is_digit c then let (ds, r) := span_digits s' in (c :: ds, r)
      else ([], s)
  | [] => ([], [])
  end.

Definition int_of_digits (ds : list N) : Z :=
  fold_left (fun acc c => (acc * 10 + Z.of_N (c - 48))%Z) ds 0%Z.

(** The integer part of NUMBER_RE, an optional minus sign and then either
    a single 0 or a digit 1-9 followed by digits: its text and what follows. *)
Definition match_integer (s : list N) : option (list N * list N) :=
  let (sign, s1) :=
    match s with
    | c :: s' => if c =? 45 then ([c], s') else ([], s)
    | [] => ([], s)
    end in
  match s1 with
  | c :: s2 =>
      if c =? 48 then Some (sign ++ [c], s2)
      else if is_digit c then
        let (ds, r) := span_digits s2 in Some (sign ++ c :: ds, r)
      else None
  | [] => None
  end.

(** The optional fraction of NUMBER_RE: a dot and at least one digit. *)
Definition match_frac (s : list N) : list N * list N :=
  match s with
  | c :: s1 =>
      if c =? 46 then
        match span_digits s1 with
        | ([], _) => ([], s)
        | (ds, r) => (c :: ds, r)
        end
      else ([], s)
  | [] => ([], s)
  end.

(** The optional exponent of NUMBER_RE: e or E, an optional sign, and at
    least one digit. *)
Definition match_exp (s : list N) : list N * list N :=
  match s with
  | c :: s1 =>
      if (c =? 101) || (c =? 69) then
        let (sign, s2) :=
          match s1 with
          | d :: s' => if (d =? 45) || (d =? 43) then ([d], s') else ([], s1)
          | [] => ([], s1)
          end in
        match span_digits s2 with
        | ([], _) => ([], s)
        | (ds, r) => (c :: sign ++ ds, r)
        end
      else ([], s)
  | [] => ([], s)
  end.

(** NUMBER_RE and the int/float choice of the scanner *)
Definition match_number (s : list N) : option (pyval * list N) :=
  match match_integer s with
  | None => None
  | Some (integer, s1) =>
      let (frac, s2) := match_frac s1 in
      let (exp, s3) := match_exp s2 in
      match frac, exp with
      | [], [] =>
          match integer with
          | c :: ds =>
              if c =? 45 then Some (PyInt (- int_of_digits ds), s3)
              else Some (PyInt (int_of_digits integer), s3)
          | [] => None
          end
      | _, _ => Some (PyFloat (FDec (integer ++ frac ++ exp)), s3)
      end
  end.

(** The literals, and the numbers: everything that is not a string, an
    object or an array. *)
Definition scan_atom (s : list N) : scan pyval :=
  match strip_prefix (text "null") s with
  | Some r => Scanned PyNone r
  | None =>
  match strip_prefix (text "true") s with
  | Some r => Scanned (PyBool true) r
  | None =>
  match strip_prefix (text "false") s with
  | Some r => Scanned (PyBool false) r
  | None =>
  match match_number s with
  | Some (v, r) => Scanned v r
  | None =>
  match strip_prefix (text "NaN") s with
  | Some r => Scanned (PyFloat FNaN) r
  | None =>
  match strip_prefix (text "Infinity") s with
  | Some r => Scanned (PyFloat (FInf false)) r
  | None =>
  match strip_prefix (text "-Infinity") s with
  | Some r => Scanned (PyFloat (FInf true)) r
  | None => Malformed
  end end end end end end end.

(** The number of digits of the integer at the front of the text. *)
Definition int_digits (s : list N) : nat :=
  match match_integer s with
  | Some (integer, _) => length (List.filter is_digit integer)
  | None => O
  end.

(** [int(text)] refuses more digits than the cap, unless the cap is 0. *)
Definition over_cap (max_digits digits : nat) : bool :=
  match max_digits with
  | O => false
  | S _ => (max_digits <? digits)%nat
  end.

(** The conversion of an integer literal: [ValueError] when it has more
    digits than the cap.  Floats and the other literals pass. *)
Definition refuse_long (max_digits : nat) (s : list N) (r : scan pyval)
  : scan pyval :=
  match r with
  | Scanned (PyInt _) _ =>
      if over_cap max_digits (int_digits s) then Refused ValueError else r
  | _ => r
  end.

(** [scan_once], [JSONObject] and [JSONArray].  [object_items] starts
    after the opening quote of a key, [array_items] at a value; both carry
    the reversed list of what was read before.  [room] is the number of
    nested objects and arrays that can still be entered: the scanner
    guards the entry of each with [Py_EnterRecursiveCall], which raises
    [RecursionError] when none is left. *)
Fixpoint scan_once (max_digits : nat) (n : nat) (room : nat) (s : list N)
    {struct n} : scan pyval :=
  match n with
  | O => Exhausted
  | S n' =>
      match s with
      | [] => Malformed
      | c :: s1 =>
          if c =? QUOTE then
            match scanstring s1 [] with
            | Scanned v r => Scanned (PyStr v) r
            | Malformed => Malformed
            | Refused e => Refused e
            | Exhausted => Exhausted
            end
          else if c =? LBRACE then
            match room with
            | O => Refused RecursionError
            | S room' =>
                match skip_ws s1 with
                | d :: s2 =>
                    if d =? RBRACE then Scanned (PyDict []) s2
                    else if d =? QUOTE then
                      match object_items max_digits n' room' s2 [] with
                      | Scanned pairs r =>
                          Scanned (PyDict (dict_of_pairs pairs)) r
                      | Malformed => Malformed
                      | Refused e => Refused e
                      | Exhausted => Exhausted
                      end
                    else Malformed
                | [] => Malformed
                end
            end
          else if c =? LBRACKET then
            match room with
            | O => Refused RecursionError
            | S room' =>
                match skip_ws s1 with
                | d :: s2 =>
                    if d =? RBRACKET then Scanned (PyList []) s2
                    else
                      match array_items max_digits n' room' (d :: s2) [] with
                      | Scanned values r => Scanned (PyList values) r
                      | Malformed => Malformed
                      | Refused e => Refused e
                      | Exhausted => Exhausted
                      end
                | [] => Malformed
                end
            end
          else refuse_long max_digits s (scan_atom s)
      end
  end
with object_items (max_digits : nat) (n : nat) (room : nat) (s : list N)
       (acc : list (list N * pyval)) {struct n}
  : scan (list (list N * pyval)) :=
  match n with
  | O => Exhausted
  | S n' =>
      match scanstring s [] with
      | Scanned key r =>
          match skip_ws r with
          | c :: r1 =>
              if c =? COLON then
                match scan_once max_digits n' room (skip_ws r1) with
                | Scanned v r2 =>
                    match skip_ws r2 with
                    | d :: r3 =>
                        if d =? RBRACE then Scanned (rev ((key, v) :: acc)) r3
                        else if d =? COMMA then
                          match skip_ws r3 with
                          | q :: r4 =>
                              if q =? QUOTE
                              then object_items max_digits n' room r4
                                     ((key, v) :: acc)
                              else Malformed
                          | [] => Malformed
                          end
                        else Malformed
                    | [] => Malformed
                    end
                | Malformed => Malformed
                | Refused e => Refused e
                | Exhausted => Exhausted
                end
              else Malformed
          | [] => Malformed
          end
      | Malformed => Malformed
      | Refused e => Refused e
      | Exhausted => Exhausted
      end
  end
with array_items (max_digits : nat) (n : nat) (room : nat) (s : list N)
       (acc : list pyval) {struct n} : scan (list pyval) :=
  match n with
  | O => Exhausted
  | S n' =>
      match scan_once max_digits n' room s with
      | Scanned v r =>
          match skip_ws r with
          | d :: r1 =>
              if d =? RBRACKET then Scanned (rev (v :: acc)) r1
              else if d =? COMMA
              then array_items max_digits n' room (skip_ws r1) (v :: acc)
              else Malformed
          | [] => Malformed
          end
      | Malformed => Malformed
      | Refused e => Refused e
      | Exhausted => Exhausted
      end
  end.

(** [JSONDecoder.raw_decode] at the first non-blank character *)
Definition raw_decode (L : limits) (s : list N) : scan pyval :=
  scan_once (int_max_str_digits L) (S (2 * length s)) (recursion_room L)
    (skip_ws s).

(** [json.loads(s)] for a [str]: a leading byte-order mark is refused, the
    document is decoded, and only blanks may follow it.  What the
    interpreter raises on the way passes through. *)
Definition loads (L : limits) (s : list N) : py pyval :=
  match s with
  | 65279 :: _ => Raise JSONDecodeError
  | _ =>
      match raw_decode L s with
      | Scanned v r =>
          match skip_ws r with
          | [] => Ret v
          | _ :: _ => Raise JSONDecodeError
          end
      | Refused e => Raise e
      | Malformed | Exhausted => Raise JSONDecodeError
      end
  end.

End Json.

(** ** [re.search] *)
Module Re.

(** A one-character pattern: a literal, [.] under DOTALL, or [\s]. *)
Inductive cls :=
| CChar (c : N)
| CAny
| CSpace.

(** [\s] on a [str] pattern: the Unicode white space characters. *)
Definition is_space (c : N) : bool :=
  ((9 <=? c) && (c <=? 13)) || ((28 <=? c) && (c <=? 32))
  || (c =? 133) || (c =? 160) || (c =? 5760)
  || ((8192 <=? c) && (c <=? 8202))
  || (c =? 8232) || (c =? 8233) || (c =? 8239) || (c =? 8287) || (c =? 12288).

Definition cls_matches (k : cls) (c : N) : bool :=
  match k with
  | CChar a => a =? c
  | CAny => true
  | CSpace => is_space c
  end.

(** The fragment of the pattern language the tool uses. *)
Inductive regex :=
| RLit (l : list N)            (* literal text *)
| ROne (k : cls)               (* one character of a class *)
| RSeq (r1 r2 : regex)         (* r1 r2 *)
| ROpt (r : regex)             (* (?:r)?  greedy *)
| RStar (k : cls)              (* k*      greedy *)
| RStarLazy (k : cls)          (* k*?     lazy *)
| RGroup (r : regex).          (* (r)     capturing group 1 *)

Section Matcher.
Context {A : Type}.

(** [k*]: take as many characters as possible, give back one at a time. *)
Fixpoint star_greedy (k : cls) (s : list N) (cont : list N -> option A)
  : option A :=
  match s with
  | c :: s' =>
      if cls_matches k c then
        match star_greedy k s' cont with
        | Some a => Some a
        | None => cont s
        end
      else cont s
  | [] => cont []
  end.

(** [k*?]: take as few characters as possible, add one at a time. *)
Fixpoint star_lazy (k : cls) (s : list N) (cont : list N -> option A)
  : option A :=
  match cont s with
  | Some a => Some a
  | None =>
      match s with
      | c :: s' => if cls_matches k c then star_lazy k s' cont else None
      | [] => None
      end
  end.

(** Backtracking match of [r] at the front of [s].  [cap] is group 1 so
    far; [cont] is tried on every way to match, in priority order, until
    it accepts. *)
Fixpoint match_at (r : regex) (s : list N) (cap : option (list N))
    (cont : list N -> option (list N) -> option A) : option A :=
  match r with
  | RLit l =>
      match strip_prefix l s with
      | Some s' => cont s' cap
      | None => None
      end
  | ROne k =>
      match s with
      | c :: s' => if cls_matches k c then cont s' cap else None
      | [] => None
      end
  | RSeq r1 r2 =>
      match_at r1 s cap (fun s' cap' => match_at r2 s' cap' cont)
  | ROpt r1 =>
      match match_at r1 s cap cont with
      | Some a => Some a
      | None => cont s cap
      end
  | RStar k => star_greedy k s (fun s' => cont s' cap)
  | RStarLazy k => star_lazy k s (fun s' => cont s' cap)
  | RGroup r1 =>
      match_at r1 s cap
        (fun s' _ => cont s' (Some (take (length s - length s') s)))
  end.
End Matcher.

(** The continuation [search] gives the matcher: accept, and report what
    is left of the text and group 1. *)
Definition accept (s' : list N) (cap : option (list N))
  : option (list N * option (list N)) := Some (s', cap).

(** A match object: where it starts, [group(0)] and [group(1)]. *)
Record rmatch := {
  start : nat;
  group0 : list N;
  group1 : option (list N)
}.

(** [re.search]: the first position, from the left, where the pattern
    matches; [pos] counts the characters already passed. *)
Fixpoint search_from (r : regex) (pos : nat) (s : list N) : option rmatch :=
  match match_at r s None accept with
  | Some (s', cap) =>
      Some {| start := pos;
              group0 := take (length s - length s') s;
              group1 := cap |}
  | None =>
      match s with
      | [] => None
      | _ :: s' => search_from r (S pos) s'
      end
  end.

Definition search (r : regex) (s : list N) : option rmatch :=
  search_from r 0 s.

End Re.

(** ** The world the tool acts on *)

Inductive level := INFO | WARNING | ERROR.

(** What the pointer driver (pyautogui) is asked to do. *)
Inductive pointer_cmd :=
| MoveTo (x y : Z) (duration_ms : Z)
| Click
| DoubleClick
| RightClick.

Record world := {
  logged : list (level * string);   (* records of the logger, oldest first *)
  screen : Z * Z;                   (* what pyautogui.size() returns *)
  pointer : list pointer_cmd;       (* commands issued so far, oldest first *)
  slept : nat;                      (* calls of time.sleep(0.1) so far *)
  interp : limits                   (* the settings of the interpreter *)
}.

(** A computation that may log, drive the pointer, sleep, and raise. *)
Definition M (A : Type) : Type := world -> py A * world.

Definition ret {A} (a : A) : M A := fun w => (Ret a, w).
Definition raise {A} (e : exn) : M A := fun w => (Raise e, w).
Definition lift {A} (r : py A) : M A := fun w => (r, w).

Definition bind {A B} (c : M A) (k : A -> M B) : M B :=
  fun w =>
    match c w with
    | (Ret a, w') => k a w'
    | (Raise e, w') => (Raise e, w')
    end.

Notation "'let!' x := c 'in' k" := (bind c (fun x => k))
  (at level 10, x name, c at level 100, k at level 200).
Notation "'do' c ; k" := (bind c (fun _ => k))
  (at level 10, c at level 100, k at level 200).

(** [try: body / except <class> as exc: handler exc] *)
Definition try_except {A} (body : M A) (class : exn -> bool)
    (handler : exn -> M A) : M A :=
  fun w =>
    match body w with
    | (Ret a, w') => (Ret a, w')
    | (Raise e, w') => if class e then handler e w' else (Raise e, w')
    end.

Definition logger (l : level) (msg : string) : M unit :=
  fun w =>
    (Ret tt, {| logged := logged w ++ [(l, msg)]; screen := screen w;
                pointer := pointer w; slept := slept w;
                interp := interp w |}).

Definition pyautogui_size : M (Z * Z) := fun w => (Ret (screen w), w).

(** A call of the pointer driver.  [main] switches the driver's fail-safe
    off, so a call returns wherever the pointer is. *)
Definition pyautogui (c : pointer_cmd) : M unit :=
  fun w =>
    (Ret tt, {| logged := logged w; screen := screen w;
                pointer := pointer w ++ [c]; slept := slept w;
                interp := interp w |}).

Definition time_sleep_tenth : M unit :=
  fun w =>
    (Ret tt, {| logged := logged w; screen := screen w;
                pointer := pointer w; slept := S (slept w);
                interp := interp w |}).

(** Configuration constants.  Durations are in milliseconds. *)
Definition ANALYSIS_INTERVAL : Z := 3000.
Definition CURSOR_MOVE_DURATION : Z := 400.

(** ** ScreenAnalyzer._parse_response *)

(** The pattern of the fenced block: three backticks, an optional json tag,
    blanks, a captured brace span taken lazily, blanks, three backticks. *)
Definition FENCE_RE : Re.regex :=
  Re.RSeq (Re.RLit (text "```"))
  (Re.RSeq (Re.ROpt (Re.RLit (text "json")))
  (Re.RSeq (Re.RStar Re.CSpace)
  (Re.RSeq (Re.RGroup
             (Re.RSeq (Re.ROne (Re.CChar LBRACE))
             (Re.RSeq (Re.RStarLazy Re.CAny) (Re.ROne (Re.CChar RBRACE)))))
  (Re.RSeq (Re.RStar Re.CSpace) (Re.RLit (text "```")))))).

(** The pattern of the brace span: an opening brace, anything taken
    greedily, a closing brace. *)
Definition BRACES_RE : Re.regex :=
  Re.RSeq (Re.ROne (Re.CChar LBRACE))
  (Re.RSeq (Re.RStar Re.CAny) (Re.ROne (Re.CChar RBRACE))).

(** [match.group(1)] of a match of [FENCE_RE]; the group always takes part
    in a match of that pattern. *)
Definition group1_text (m : Re.rmatch) : list N :=
  match Re.group1 m with
  | Some g => g
  | None => []
  end.

(** One attempt of [_parse_response], [try: return json.loads(s) / except
    json.JSONDecodeError: pass]: [Some] is the [return] (or an exception the
    clause does not catch), [None] is going on to the next statement. *)
Definition try_loads (L : limits) (s : list N) : option (py pyval) :=
  match Json.loads L s with
  | Ret v => Some (Ret v)
  | Raise e => if is_JSONDecodeError e then None else Some (Raise e)
  end.

(** The second attempt: the interior of a fenced block. *)
Definition try_fenced (L : limits) (raw : list N) : option (py pyval) :=
  match Re.search FENCE_RE raw with
  | Some m => try_loads L (group1_text m)
  | None => None
  end.

(** The third attempt: the span from the first opening brace to the last
    closing brace. *)
Definition try_braces (L : limits) (raw : list N) : option (py pyval) :=
  match Re.search BRACES_RE raw with
  | Some m => try_loads L (Re.group0 m)
  | None => None
  end.

Definition _parse_response (raw : list N) : M pyval :=
  fun w =>
  let L := interp w in
  (* Try direct JSON parse first *)
  match try_loads L raw with
  | Some r => lift r w
  | None =>
  (* Try to extract JSON block from markdown fences *)
  match try_fenced L raw with
  | Some r => lift r w
  | None =>
  (* Try to find any JSON object in the text *)
  match try_braces L raw with
  | Some r => lift r w
  | None =>
      (do logger WARNING "Could not parse LLM response as JSON.";
       ret PyNone) w
  end end end.

(** ** Python built-ins used on decoded values *)

(** Conversions whose result depends on binary floating point or on the
    full syntax of [int(str)]; the development is parametric in them. *)
Record builtins := {
  float_nonzero : pyfloat -> bool;     (* bool(x) for a float *)
  float_trunc : pyfloat -> py Z;       (* int(x) for a float *)
  str_to_int : list N -> py Z          (* int(x) for a str *)
}.

Section Builtins.
Variable B : builtins.

(** [bool(v)] *)
Definition truthy (v : pyval) : bool :=
  match v with
  | PyNone => false
  | PyBool b => b
  | PyInt z => negb (z =? 0)%Z
  | PyFloat f => float_nonzero B f
  | PyStr s => negb (bool_decide (s = []))
  | PyList l => match l with [] => false | _ :: _ => true end
  | PyDict d => match d with [] => false | _ :: _ => true end
  end.

(** [int(v)] *)
Definition py_int (v : pyval) : py Z :=
  match v with
  | PyInt z => Ret z
  | PyBool b => Ret (if b then 1 else 0)%Z
  | PyFloat f => float_trunc B f
  | PyStr s => str_to_int B s
  | PyNone | PyList _ | PyDict _ => Raise TypeError
  end.

(** [len(v)] *)
Definition py_len (v : pyval) : py Z :=
  match v with
  | PyStr s => Ret (Z.of_nat (length s))
  | PyList l => Ret (Z.of_nat (length l))
  | PyDict d => Ret (Z.of_nat (length d))
  | _ => Raise TypeError
  end.

(** [v.get(key, default)]: only a dict has the method. *)
Definition py_get (v : pyval) (key : list N) (default : pyval) : py pyval :=
  match v with
  | PyDict d =>
      Ret (match dict_get d key with Some x => x | None => default end)
  | _ => Raise AttributeError
  end.

Definition is_None (v : pyval) : bool :=
  match v with
  | PyNone => true
  | _ => false
  end.

(** [v == "..."] for a string literal *)
Definition eq_str (v : pyval) (s : string) : bool :=
  match v with
  | PyStr t => str_eqb t (text s)
  | _ => false
  end.

(** ** CursorController *)

Definition move_and_click (x y : Z) (action : pyval) : M unit :=
  let! size := pyautogui_size in
  let screen_w := fst size in
  let screen_h := snd size in
  (* Clamp coordinates to screen bounds *)
  let x := Z.max 0 (Z.min x (screen_w - 1)) in
  let y := Z.max 0 (Z.min y (screen_h - 1)) in
  do logger INFO "Moving cursor to (%d, %d) - action: %s";
  do pyautogui (MoveTo x y CURSOR_MOVE_DURATION);
  if eq_str action "click" then pyautogui Click
  else if eq_str action "double_click" then pyautogui DoubleClick
  else if eq_str action "right_click" then pyautogui RightClick
  else pyautogui Click.

Definition execute (analysis : pyval) : M unit :=
  let! rec := lift (py_get analysis (text "recommended") PyNone) in
  if negb (truthy rec) then
    logger WARNING "No recommended action in LLM response."
  else
    let! x := lift (py_get rec (text "x") PyNone) in
    let! y := lift (py_get rec (text "y") PyNone) in
    let! action := lift (py_get rec (text "action") (PyStr (text "click"))) in
    let! label := lift (py_get rec (text "label") (PyStr (text "unknown"))) in
    let! reason := lift (py_get rec (text "reason") (PyStr [])) in
    if is_None x || is_None y then
      logger WARNING "Recommended element has no coordinates."
    else
      do logger INFO ">> Recommended: '%s' at (%d, %d) - %s";
      let! xi := lift (py_int x) in
      let! yi := lift (py_int y) in
      move_and_click xi yi action.

(** ** ScreenAnalyzer.analyze and AutomationEngine._loop *)

(** What the collaborators answer during one cycle: the screenshot, the
    encoding of the image, the completion request (the reply text, or the
    exception raised on the way to it), and the value of [self._running]
    at each of its reads during the cycle (read 0 is the loop test, reads
    1.. are those of the wait). *)
Record tick := {
  captured : py unit;
  encoded : py unit;
  reply : py (list N);
  running_at : nat -> bool
}.

Definition analyze (tk : tick) : M pyval :=
  do lift (encoded tk);
  try_except
    (let! raw := lift (reply tk) in
     do logger INFO "LLM raw response:\n%s";
     _parse_response raw)
    is_Exception
    (fun exc =>
       do logger ERROR "LLM request failed: %s";
       ret PyNone).

(** The body of the [while] loop up to the wait: the [try] statement. *)
Definition cycle (tk : tick) : M unit :=
  try_except
    ((* 1. Capture screen *)
     do logger INFO "Capturing screen...";
     do lift (captured tk);
     (* 2. Analyze with LLM *)
     do logger INFO "Sending to LLM for analysis...";
     let! analysis := analyze tk in
     if truthy analysis then
       let! desc := lift (py_get analysis (text "screen_description")
                            (PyStr (text "N/A"))) in
       let! elements := lift (py_get analysis (text "elements") (PyList [])) in
       do logger INFO "Screen: %s";
       let! n := lift (py_len elements) in
       do logger INFO "Found %d interactive elements.";
       (* 3. Execute recommended action *)
       execute analysis
     else
       logger WARNING "No valid analysis returned. Retrying...")
    is_Exception
    (fun exc => logger ERROR "Automation cycle error: %s").

(** [for _ in range(k): if not self._running: return / time.sleep(0.1)];
    [i] is the number of the next read of the flag.  The result says
    whether the loop goes on ([true]) or the function returned. *)
Fixpoint wait (k : nat) (flag : nat -> bool) (i : nat) (w : world)
  : bool * world :=
  match k with
  | O => (true, w)
  | S k' =>
      if flag i
      then wait k' flag (S i) (snd (time_sleep_tenth w))
      else (false, w)
  end.

(** How a run of [_loop] that is observed for a number of iterations
    ends: the function returned, an exception left it, or it is still
    looping. *)
Inductive loop_outcome :=
| Returned (w : world)
| Escaped (e : exn) (w : world)
| Looping (w : world).

(** [_loop], observed for [n] iterations; [env t] is the environment of
    iteration [t]. *)
Fixpoint _loop (n : nat) (env : nat -> tick) (t : nat) (w : world)
  : loop_outcome :=
  match n with
  | O => Looping w
  | S n' =>
      if running_at (env t) 0 then
        match cycle (env t) w with
        | (Raise e, w1) => Escaped e w1
        | (Ret _, w1) =>
            (* Wait before next cycle *)
            match wait (Z.to_nat (ANALYSIS_INTERVAL * 10 / 1000))
                    (running_at (env t)) 1 w1 with
            | (false, w2) => Returned w2
            | (true, w2) => _loop n' env (S t) w2
            end
        end
      else Returned w
  end.

End Builtins.

(** ** AutomationEngine: start and stop *)

(** The engine object and the worker threads it has started.  [alive] is
    the set of workers that have been started and have not left [_loop]. *)
Record engine := {
  _running : bool;
  _thread : option nat;
  alive : gset nat;
  spawned : nat
}.

(** [AutomationEngine.__init__] *)
Definition new_engine : engine :=
  {| _running := false; _thread := None; alive := ∅; spawned := 0 |}.

Definition is_running (e : engine) : bool := _running e.

Definition start (e : engine) : M engine :=
  if _running e then
    do logger INFO "Automation is already running.";
    ret e
  else
    (* self._running = True; the new Thread object is created and started *)
    let t := spawned e in
    let e' := {| _running := true; _thread := Some t;
                 alive := {[ t ]} ∪ alive e; spawned := S t |} in
    do logger INFO "=== Automation STARTED (Ctrl+; to stop) ===";
    ret e'.

(** [exited] tells whether the worker leaves [_loop] before the join of at
    most five seconds gives up. *)
Definition stop (exited : bool) (e : engine) : M engine :=
  if negb (_running e) then
    do logger INFO "Automation is not running.";
    ret e
  else
    let joined :=
      match _thread e with
      | Some t => if exited then alive e ∖ {[ t ]} else alive e
      | None => alive e
      end in
    let e' := {| _running := false; _thread := None;
                 alive := joined; spawned := spawned e |} in
    do logger INFO "=== Automation STOPPED ===";
    ret e'.

(** ** TrayApp and HotkeyManager *)

Record tray_icon := {
  color : string;
  title : string
}.

Definition GREEN : tray_icon :=
  {| color := "#4CAF50"; title := "LLM Cursor Tool - RUNNING" |}.
Definition RED : tray_icon :=
  {| color := "#F44336"; title := "LLM Cursor Tool - STOPPED" |}.

(** The application: the engine shared by the tray and the hot keys, and
    the tray icon ([None] until [TrayApp.run] creates it). *)
Record App := {
  the_engine : engine;
  icon : option tray_icon
}.

Module TrayApp.

Definition _update_icon (a : App) : App :=
  match icon a with
  | Some _ =>
      if is_running (the_engine a)
      then {| the_engine := the_engine a; icon := Some GREEN |}
      else {| the_engine := the_engine a; icon := Some RED |}
  | None => a
  end.

Definition _on_start (a : App) : M App :=
  let! e := start (the_engine a) in
  ret (_update_icon {| the_engine := e; icon := icon a |}).

Definition _on_stop (exited : bool) (a : App) : M App :=
  let! e := stop exited (the_engine a) in
  ret (_update_icon {| the_engine := e; icon := icon a |}).

(** [icon.stop()] removes the icon. *)
Definition _on_quit (exited : bool) (a : App) : M App :=
  let! e := stop exited (the_engine a) in
  ret {| the_engine := e; icon := None |}.

(** [run] up to the point where the icon is shown. *)
Definition run (a : App) : App :=
  {| the_engine := the_engine a; icon := Some RED |}.

End TrayApp.

Module HotkeyManager.

Definition _on_start (a : App) : M App :=
  do logger INFO "Hotkey Ctrl+M pressed!";
  let! e := start (the_engine a) in
  ret {| the_engine := e; icon := icon a |}.

Definition _on_stop (exited : bool) (a : App) : M App :=
  do logger INFO "Hotkey Ctrl+; pressed!";
  let! e := stop exited (the_engine a) in
  ret {| the_engine := e; icon := icon a |}.

End HotkeyManager.

(** The external triggers that request a lifecycle transition. *)
Inductive trigger :=
| MenuStart
| MenuStop (exited : bool)
| HotkeyStart
| HotkeyStop (exited : bool).

Definition fire (t : trigger) (a : App) : M App :=
  match t with
  | MenuStart => TrayApp._on_start a
  | MenuStop exited => TrayApp._on_stop exited a
  | HotkeyStart => HotkeyManager._on_start a
  | HotkeyStop exited => HotkeyManager._on_stop exited a
  end.

(** The icon shown, if any, is the one for the engine's state. *)
Definition indicator_current (a : App) : bool :=
  match icon a with
  | Some i =>
      bool_decide (title i = title (if is_running (the_engine a) then GREEN else RED))
  | None => true
  end.

(** ** ScreenAnalyzer.encode_image *)

(** A PIL image object: its size and its pixel data. *)
Record Image := {
  size : Z * Z;
  data : list N
}.

Definition SCREENSHOT_MAX_SIZE : Z * Z := (1280, 1280)%Z.
Definition SCREENSHOT_QUALITY : Z := 85.

Section Pil.
(** The image a call of [thumbnail(size)] leaves in the object, and the
    base64 text of its JPEG encoding at a given quality: what PIL, the
    encoder and [base64] compute is not modelled further. *)
Variable thumbnail_of : Image -> Z * Z -> Image.
Variable jpeg_base64 : Image -> Z -> list N.

(** Image objects live in a store and are passed by reference; [None]
    stands for the use of a reference that points nowhere. *)
Definition Image_copy (r : nat) (h : gmap nat Image)
  : option (nat * gmap nat Image) :=
  match h !! r with
  | Some img => let r' := fresh (dom h) in Some (r', <[ r' := img ]> h)
  | None => None
  end.

(** [thumbnail] changes the object in place. *)
Definition Image_thumbnail (r : nat) (sz : Z * Z) (h : gmap nat Image)
  : option (gmap nat Image) :=
  match h !! r with
  | Some img => Some (<[ r := thumbnail_of img sz ]> h)
  | None => None
  end.

Definition Image_save_b64 (r : nat) (quality : Z) (h : gmap nat Image)
  : option (list N) :=
  match h !! r with
  | Some img => Some (jpeg_base64 img quality)
  | None => None
  end.

Definition encode_image (image : nat) (h : gmap nat Image)
  : option (list N * gmap nat Image) :=
  match Image_copy image h with
  | Some (img, h1) =>
      (* Resize while keeping aspect ratio *)
      match Image_thumbnail img SCREENSHOT_MAX_SIZE h1 with
      | Some h2 =>
          match Image_save_b64 img SCREENSHOT_QUALITY h2 with
          | Some b64 => Some (b64, h2)
          | None => None
          end
      | None => None
      end
  | None => None
  end.

(** [encode_image_to_base64] of open.py, which resizes the image it is
    given. *)
Definition encode_image_to_base64 (image : nat) (h : gmap nat Image)
  : option (list N * gmap nat Image) :=
  match Image_thumbnail image (800, 800)%Z h with
  | Some h1 =>
      match Image_save_b64 image 80 h1 with
      | Some b64 => Some (b64, h1)
      | None => None
      end
  | None => None
  end.
End Pil.

(** * Vocabulary of the statements *)

(** ** Notions used in the statements about the extraction *)

(** The characters that can follow a value inside an object or an array:
    a blank, a comma, a closing brace or bracket. *)
Definition is_delim (c : N) : bool :=
  Json.is_ws c || (c =? COMMA) || (c =? RBRACE) || (c =? RBRACKET).

(** The text starts with such a character. *)
Definition delimited (r : list N) : Prop :=
  match r with
  | c :: _ => is_delim c = true
  | [] => False
  end.

(** The first character opens a string, an object or an array. *)
Definition opens_compound (s : list N) : Prop :=
  match s with
  | c :: _ => (c =? QUOTE) || (c =? LBRACE) || (c =? LBRACKET) = true
  | [] => False
  end.


(** The text, when it is not empty, ends with a closing brace. *)
Definition ends_closed (s : list N) : Prop :=
  forall p c, s = p ++ [c] -> c = RBRACE.

(** What a pattern denotes: [matches r w cap cap'] says that [r] can match
    the text [w], taking group 1 from [cap] to [cap']. *)
Inductive matches : Re.regex -> list N -> option (list N) -> option (list N) -> Prop :=
| matches_lit : forall l cap, matches (Re.RLit l) l cap cap
| matches_one : forall k c cap,
    Re.cls_matches k c = true -> matches (Re.ROne k) [c] cap cap
| matches_seq : forall r1 r2 w1 w2 c0 c1 c2,
    matches r1 w1 c0 c1 -> matches r2 w2 c1 c2 ->
    matches (Re.RSeq r1 r2) (w1 ++ w2) c0 c2
| matches_opt_some : forall r w c0 c1,
    matches r w c0 c1 -> matches (Re.ROpt r) w c0 c1
| matches_opt_none : forall r cap, matches (Re.ROpt r) [] cap cap
| matches_star : forall k w cap,
    Forall (fun c => Re.cls_matches k c = true) w ->
    matches (Re.RStar k) w cap cap
| matches_star_lazy : forall k w cap,
    Forall (fun c => Re.cls_matches k c = true) w ->
    matches (Re.RStarLazy k) w cap cap
| matches_group : forall r w c0 c1,
    matches r w c0 c1 -> matches (Re.RGroup r) w c0 (Some w).

(** The text holds no span that begins with an opening brace and ends with
    a closing brace. *)
Definition no_brace_span (s : list N) : Prop :=
  forall a b c, s <> a ++ LBRACE :: b ++ RBRACE :: c.

(** A continuation that accepts exactly a closing brace, as the end of the
    brace pattern does. *)
Definition closes (cont : list N -> option (list N * option (list N))) : Prop :=
  forall s, cont s =
    match s with
    | c :: s' => if RBRACE =? c then Some (s', None) else None
    | [] => None
    end.

(** A reply wrapped in a json fence: three backticks and the tag, a line
    feed, the document, a line feed, three backticks. *)
Definition fenced (j : list N) : list N :=
  text "```json" ++ NEWLINE :: j ++ NEWLINE :: text "```".

(** A key or string value of a document, between quotes. *)
Definition quoted (s : string) : list N := QUOTE :: text s ++ [QUOTE].

(** Sample documents. *)
Definition doc_point : list N :=
  text "{" ++ quoted "x" ++ text ": 500, " ++ quoted "y" ++ text ": 300}".
Definition val_point : pyval :=
  PyDict [(text "x", PyInt 500); (text "y", PyInt 300)].
Definition doc_list : list N := text "[1]".

(** An integer of 4400 digits, and 2000 opening brackets. *)
Definition long_integer : list N := repeat 49 4400.
Definition deep_list : list N := repeat LBRACKET 2000.

(** A reply whose recommendation is the label of an element. *)
Definition doc_login : list N :=
  text "{" ++ quoted "recommended" ++ text ": " ++ quoted "Login" ++ text "}".
Definition val_login : pyval :=
  PyDict [(text "recommended", PyStr (text "Login"))].

(** The settings of an interpreter as it starts: a recursion limit of
    1000, which bounds the room from above, and the cap of 4300 digits. *)
Definition default_limits : limits :=
  {| recursion_room := 1000; int_max_str_digits := 4300 |}.

Definition world0 : world :=
  {| logged := []; screen := (1920, 1080)%Z; pointer := []; slept := 0;
     interp := default_limits |}.

(** The world after the warning that closes a failed extraction. *)
Definition warned (w : world) : world :=
  {| logged := logged w ++ [(WARNING, "Could not parse LLM response as JSON."%string)];
     screen := screen w; pointer := pointer w; slept := slept w;
     interp := interp w |}.

Definition body_point : list N :=
  quoted "x" ++ text ": 500, " ++ quoted "y" ++ text ": 300".

(** ** Vocabulary of the statements about the loop *)

(** The world after [k] more naps of a tenth of a second. *)
Definition asleep (k : nat) (w : world) : world :=
  {| logged := logged w; screen := screen w; pointer := pointer w;
     slept := (k + slept w)%nat; interp := interp w |}.

(** No attempt of [_parse_response] finds a document in the reply. *)
Definition unparseable (L : limits) (raw : list N) : Prop :=
  try_loads L raw = None /\ try_fenced L raw = None /\ try_braces L raw = None.

(** An attempt of [_parse_response] is reached and lets an exception
    pass. *)
Definition refused (L : limits) (raw : list N) : Prop :=
  exists e,
    try_loads L raw = Some (Raise e) \/
    (try_loads L raw = None /\ try_fenced L raw = Some (Raise e)) \/
    (try_loads L raw = None /\ try_fenced L raw = None /\
     try_braces L raw = Some (Raise e)).

(** The failures of one cycle: the screenshot fails, the request to the
    model fails, the reply holds no document, or the interpreter refuses
    the reply.  The errors are those of the class [Exception]; [L] holds the
    settings of the interpreter that runs the cycle. *)
Inductive cycle_failure (L : limits) (tk : tick) : Prop :=
| capture_error e :
    captured tk = Raise e -> is_Exception e = true -> cycle_failure L tk
| transport_error e :
    captured tk = Ret tt -> encoded tk = Ret tt ->
    reply tk = Raise e -> is_Exception e = true -> cycle_failure L tk
| unparseable_reply raw :
    captured tk = Ret tt -> encoded tk = Ret tt ->
    reply tk = Ret raw -> unparseable L raw -> cycle_failure L tk
| refused_reply raw :
    captured tk = Ret tt -> encoded tk = Ret tt ->
    reply tk = Ret raw -> refused L raw -> cycle_failure L tk.

(** A record is a warning or an error. *)
Definition is_alert (r : level * string) : bool :=
  match fst r with
  | INFO => false
  | WARNING | ERROR => true
  end.

(** Samples for the statements below. *)
Definition sample_builtins : builtins :=
  {| float_nonzero := fun _ => true;
     float_trunc := fun _ => Raise ValueError;
     str_to_int := fun _ => Raise ValueError |}.

Definition prose_tick : tick :=
  {| captured := Ret tt; encoded := Ret tt;
     reply := Ret (text "I cannot see the screen.");
     running_at := fun _ => true |}.

Definition login_tick : tick :=
  {| captured := Ret tt; encoded := Ret tt; reply := Ret doc_login;
     running_at := fun _ => true |}.

Definition sample_image : Image :=
  {| size := (1920, 1080)%Z; data := [1; 2; 3] |}.
Definition sample_thumbnail (img : Image) (sz : Z * Z) : Image :=
  {| size := (Z.min (fst (size img)) (fst sz), Z.min (snd (size img)) (snd sz));
     data := data img |}.
Definition sample_jpeg (img : Image) (quality : Z) : list N :=
  N.of_nat (Z.to_nat quality) :: data img.

(** * Facts about the decoder *)

(** Case analysis on the scrutinee of the first [match] of a hypothesis. *)
Ltac split_match H :=
  match type of H with
  | context [match ?x with _ => _ end] =>
      destruct x eqn:?; try discriminate H; cbn [Datatypes.app] in *
  end.

Lemma scanstring_app : forall k s acc v r q,
  (length s <= k)%nat ->
  Json.scanstring s acc = Json.Scanned v r ->
  Json.scanstring (s ++ q) acc = Json.Scanned v (r ++ q).
Proof.
  induction k as [|k IH]; intros s acc v r q Hlen H.
  - destruct s; [discriminate H | simpl in Hlen; lia].
  - destruct s as [|c s1]; [discriminate H|].
    simpl in H. simpl.
    repeat split_match H;
      try (injection H as <- <-; reflexivity);
      match type of H with
      | Json.scanstring ?x _ = _ =>
          apply (IH x _ _ _ q); [simpl in *; lia | exact H]
      end.
Qed.

Lemma scanstring_shorter : forall k s acc v r,
  (length s <= k)%nat ->
  Json.scanstring s acc = Json.Scanned v r ->
  (length r < length s)%nat.
Proof.
  induction k as [|k IH]; intros s acc v r Hlen H.
  - destruct s; [discriminate H | simpl in Hlen; lia].
  - destruct s as [|c s1]; [discriminate H|].
    simpl in H.
    repeat split_match H;
      try (injection H as <- <-; simpl; lia);
      match type of H with
      | Json.scanstring ?x _ = _ =>
          apply (IH x) in H; simpl in *; lia
      end.
Qed.

Lemma scanstring_not_exhausted : forall k s acc,
  (length s <= k)%nat ->
  Json.scanstring s acc <> Json.Exhausted.
Proof.
  induction k as [|k IH]; intros s acc Hlen H.
  - destruct s; [discriminate H | simpl in Hlen; lia].
  - destruct s as [|c s1]; [discriminate H|].
    simpl in H.
    repeat split_match H;
      match type of H with
      | Json.scanstring ?x _ = _ =>
          apply (IH x) in H; [exact H | simpl in *; lia]
      end.
Qed.

Lemma strip_prefix_suffix : forall p s r,
  strip_prefix p s = Some r -> s = p ++ r.
Proof.
  induction p as [|a p IH]; intros s r H; simpl in H.
  - injection H as <-. reflexivity.
  - destruct s as [|b s]; [discriminate|].
    destruct (a =? b) eqn:E; [|discriminate].
    apply N.eqb_eq in E. subst b. simpl. f_equal. auto.
Qed.

Lemma strip_prefix_app : forall p s r q,
  strip_prefix p s = Some r -> strip_prefix p (s ++ q) = Some (r ++ q).
Proof.
  induction p as [|a p IH]; intros s r q H; simpl in H.
  - injection H as <-. reflexivity.
  - destruct s as [|b s]; [discriminate|]. simpl.
    destruct (a =? b); [auto | discriminate].
Qed.

(** A literal without delimiters that fails on a text holding one fails on
    every extension of the text. *)
Lemma strip_prefix_app_none : forall p s q,
  strip_prefix p s = None ->
  forallb (fun c => negb (is_delim c)) p = true ->
  existsb is_delim s = true ->
  strip_prefix p (s ++ q) = None.
Proof.
  induction p as [|a p IH]; intros s q H Hp Hs; simpl in H; [discriminate|].
  destruct s as [|b s]; [discriminate Hs|]. simpl.
  destruct (a =? b) eqn:E; [|reflexivity].
  apply N.eqb_eq in E. subst b.
  simpl in Hp, Hs. apply andb_prop in Hp as [Ha Hp].
  apply negb_true_iff in Ha. rewrite Ha in Hs. simpl in Hs. auto.
Qed.

Lemma span_digits_eq : forall s ds r,
  Json.span_digits s = (ds, r) -> s = ds ++ r.
Proof.
  induction s as [|c s IH]; intros ds r H; simpl in H.
  - injection H as <- <-. reflexivity.
  - destruct (Json.is_digit c).
    + destruct (Json.span_digits s) as [ds' r'] eqn:E.
      injection H as <- <-. simpl. f_equal. auto.
    + injection H as <- <-. reflexivity.
Qed.

Lemma span_digits_app : forall s ds r q,
  Json.span_digits s = (ds, r) -> r <> [] ->
  Json.span_digits (s ++ q) = (ds, r ++ q).
Proof.
  induction s as [|c s IH]; intros ds r q H Hr; simpl in H.
  - injection H as <- <-. contradiction.
  - simpl. destruct (Json.is_digit c).
    + destruct (Json.span_digits s) as [ds' r'] eqn:E.
      injection H as <- <-. rewrite (IH ds' r' q eq_refl Hr). reflexivity.
    + injection H as <- <-. reflexivity.
Qed.

Lemma match_integer_suffix : forall s i r,
  Json.match_integer s = Some (i, r) -> i <> [] /\ s = i ++ r.
Proof.
  intros s i r H. unfold Json.match_integer in H.
  destruct s as [|c s]; [discriminate|].
  destruct (c =? 45) eqn:E.
  - destruct s as [|d s]; [discriminate|].
    destruct (d =? 48) eqn:E0.
    + injection H as <- <-. split; [discriminate | reflexivity].
    + destruct (Json.is_digit d); [|discriminate].
      destruct (Json.span_digits s) as [ds r'] eqn:Hs.
      injection H as <- <-. apply span_digits_eq in Hs. subst s.
      split; [discriminate | reflexivity].
  - destruct (c =? 48) eqn:E0.
    + injection H as <- <-. split; [discriminate | reflexivity].
    + destruct (Json.is_digit c); [|discriminate].
      destruct (Json.span_digits s) as [ds r'] eqn:Hs.
      injection H as <- <-. apply span_digits_eq in Hs. subst s.
      split; [discriminate | reflexivity].
Qed.

Lemma match_integer_app : forall s i r q,
  Json.match_integer s = Some (i, r) -> r <> [] ->
  Json.match_integer (s ++ q) = Some (i, r ++ q).
Proof.
  intros s i r q H Hr. unfold Json.match_integer in *.
  destruct s as [|c s]; [discriminate|]. cbn [Datatypes.app].
  destruct (c =? 45) eqn:E.
  - destruct s as [|d s]; [discriminate|]. cbn [Datatypes.app].
    destruct (d =? 48) eqn:E0.
    + injection H as <- <-. reflexivity.
    + destruct (Json.is_digit d); [|discriminate].
      destruct (Json.span_digits s) as [ds r'] eqn:Hs.
      injection H as <- <-. rewrite (span_digits_app _ _ _ q Hs Hr). reflexivity.
  - destruct (c =? 48) eqn:E0.
    + injection H as <- <-. reflexivity.
    + destruct (Json.is_digit c); [|discriminate].
      destruct (Json.span_digits s) as [ds r'] eqn:Hs.
      injection H as <- <-. rewrite (span_digits_app _ _ _ q Hs Hr). reflexivity.
Qed.

Lemma match_frac_suffix : forall s f r,
  Json.match_frac s = (f, r) -> s = f ++ r.
Proof.
  intros s f r H. unfold Json.match_frac in H.
  destruct s as [|c s]; [injection H as <- <-; reflexivity|].
  destruct (c =? 46); [|injection H as <- <-; reflexivity].
  destruct (Json.span_digits s) as [ds r'] eqn:Hs.
  destruct ds; injection H as <- <-; [reflexivity|].
  apply span_digits_eq in Hs. subst s. reflexivity.
Qed.

Lemma match_frac_app : forall s f r q,
  Json.match_frac s = (f, r) ->
  match r with c :: _ => c <> 46 | [] => False end ->
  Json.match_frac (s ++ q) = (f, r ++ q).
Proof.
  intros s f r q H Hr. unfold Json.match_frac in *.
  destruct s as [|c s]; [injection H as <- <-; contradiction|].
  cbn [Datatypes.app].
  destruct (c =? 46) eqn:E; [|injection H as <- <-; reflexivity].
  destruct (Json.span_digits s) as [ds r'] eqn:Hs.
  destruct ds; injection H as <- <-.
  - apply N.eqb_eq in E. contradiction.
  - rewrite (span_digits_app _ _ _ q Hs); [reflexivity|].
    destruct r'; [contradiction | discriminate].
Qed.

Lemma match_exp_suffix : forall s e r,
  Json.match_exp s = (e, r) -> s = e ++ r.
Proof.
  intros s e r H. unfold Json.match_exp in H.
  destruct s as [|c s]; [injection H as <- <-; reflexivity|].
  destruct ((c =? 101) || (c =? 69)); [|injection H as <- <-; reflexivity].
  destruct s as [|d s].
  - simpl in H. injection H as <- <-. reflexivity.
  - destruct ((d =? 45) || (d =? 43)).
    + destruct (Json.span_digits s) as [ds r'] eqn:Hs.
      destruct ds; injection H as <- <-; [reflexivity|].
      apply span_digits_eq in Hs. subst s. reflexivity.
    + destruct (Json.span_digits (d :: s)) as [ds r'] eqn:Hs.
      destruct ds; injection H as <- <-; [reflexivity|].
      apply span_digits_eq in Hs. rewrite Hs. reflexivity.
Qed.

Lemma match_exp_app : forall s e r q,
  Json.match_exp s = (e, r) ->
  match r with c :: _ => c <> 101 /\ c <> 69 | [] => False end ->
  Json.match_exp (s ++ q) = (e, r ++ q).
Proof.
  intros s e r q H Hr. unfold Json.match_exp in *.
  destruct s as [|c s]; [injection H as <- <-; contradiction|].
  cbn [Datatypes.app].
  destruct ((c =? 101) || (c =? 69)) eqn:E; [|injection H as <- <-; reflexivity].
  assert (Hc : c = 101 \/ c = 69).
  { apply orb_prop in E as [E|E]; apply N.eqb_eq in E; auto. }
  assert (Hne : forall r', r = c :: r' -> False).
  { intros r' ->. destruct Hr, Hc; contradiction. }
  destruct s as [|d s].
  - simpl in H. injection H as <- <-. exfalso. eapply Hne. reflexivity.
  - cbn [Datatypes.app]. destruct ((d =? 45) || (d =? 43)).
    + destruct (Json.span_digits s) as [ds r'] eqn:Hs.
      destruct ds; injection H as <- <-.
      * exfalso. eapply Hne. reflexivity.
      * rewrite (span_digits_app _ _ _ q Hs); [reflexivity|].
        destruct r'; [contradiction | discriminate].
    + destruct (Json.span_digits (d :: s)) as [ds r'] eqn:Hs.
      destruct ds; injection H as <- <-.
      * exfalso. eapply Hne. reflexivity.
      * change (d :: s ++ q) with ((d :: s) ++ q).
        rewrite (span_digits_app _ _ _ q Hs); [reflexivity|].
        destruct r'; [contradiction | discriminate].
Qed.

Lemma delimited_head : forall r (P : N -> Prop),
  delimited r ->
  (forall c, is_delim c = true -> P c) ->
  match r with c :: _ => P c | [] => False end.
Proof. intros [|c r] P H HP; [exact H | apply HP, H]. Qed.

Lemma delimited_app : forall r q, delimited r -> delimited (r ++ q).
Proof. intros [|c r] q H; [destruct H | exact H]. Qed.

Lemma delimited_exists : forall p r,
  delimited r -> existsb is_delim (p ++ r) = true.
Proof.
  intros p [|c r] H; [destruct H|]. rewrite existsb_app. simpl.
  simpl in H. rewrite H. apply orb_true_r.
Qed.

Lemma match_exp_head : forall s e r,
  Json.match_exp s = (e, r) -> delimited r ->
  match s with c :: _ => c <> 46 | [] => False end.
Proof.
  intros s e r H Hr. unfold Json.match_exp in H.
  destruct s as [|c s]; [injection H as <- <-; exact Hr|].
  destruct ((c =? 101) || (c =? 69)) eqn:E.
  - intros ->. discriminate E.
  - injection H as <- <-. intros ->. discriminate Hr.
Qed.

Lemma match_number_parts : forall s v r,
  Json.match_number s = Some (v, r) ->
  exists i s1 f s2 e,
    Json.match_integer s = Some (i, s1) /\
    Json.match_frac s1 = (f, s2) /\
    Json.match_exp s2 = (e, r).
Proof.
  intros s v r H. unfold Json.match_number in H.
  destruct (Json.match_integer s) as [[i s1]|] eqn:Hi; [|discriminate].
  destruct (Json.match_frac s1) as [f s2] eqn:Hf.
  destruct (Json.match_exp s2) as [e s3] eqn:He.
  exists i, s1, f, s2, e.
  assert (r = s3) as ->; [|auto].
  destruct f; [destruct e; [destruct i; [discriminate|destruct (_ =? _)]|]|];
    injection H as _ <-; reflexivity.
Qed.

Lemma match_number_suffix : forall s v r,
  Json.match_number s = Some (v, r) -> exists p, p <> [] /\ s = p ++ r.
Proof.
  intros s v r H.
  destruct (match_number_parts _ _ _ H) as (i & s1 & f & s2 & e & Hi & Hf & He).
  apply match_integer_suffix in Hi as [Hne ->].
  apply match_frac_suffix in Hf as ->. apply match_exp_suffix in He as ->.
  exists (i ++ f ++ e). split.
  - destruct i; [contradiction | discriminate].
  - rewrite <- !app_assoc. reflexivity.
Qed.

Lemma match_number_app : forall s v r q,
  Json.match_number s = Some (v, r) -> delimited r ->
  Json.match_number (s ++ q) = Some (v, r ++ q).
Proof.
  intros s v r q H Hr.
  destruct (match_number_parts _ _ _ H) as (i & s1 & f & s2 & e & Hi & Hf & He).
  pose proof (match_exp_head _ _ _ He Hr) as Hs2.
  assert (Hs1 : s1 <> []).
  { apply match_frac_suffix in Hf as ->. destruct s2; [contradiction|].
    destruct f; discriminate. }
  unfold Json.match_number in *.
  rewrite (match_integer_app _ _ _ q Hi Hs1), (match_frac_app _ _ _ q Hf Hs2).
  rewrite Hi, Hf, He in H. rewrite (match_exp_app _ _ _ q He).
  - destruct f; [destruct e; [destruct i; [discriminate|destruct (_ =? _)]|]|];
      injection H as <-; reflexivity.
  - apply delimited_head; [exact Hr|].
    intros c Hc; split; intros ->; discriminate Hc.
Qed.

Lemma match_integer_none_app : forall s q,
  Json.match_integer s = None -> existsb is_delim s = true ->
  Json.match_integer (s ++ q) = None.
Proof.
  intros s q H Hs. unfold Json.match_integer in *.
  destruct s as [|c s]; [discriminate Hs|]. cbn [Datatypes.app].
  destruct (c =? 45) eqn:E.
  - destruct s as [|d s].
    + apply N.eqb_eq in E. subst c. discriminate Hs.
    + cbn [Datatypes.app]. destruct (d =? 48); [discriminate|].
      destruct (Json.is_digit d); [|reflexivity].
      destruct (Json.span_digits s); discriminate.
  - destruct (c =? 48); [discriminate|].
    destruct (Json.is_digit c); [|reflexivity].
    destruct (Json.span_digits s); discriminate.
Qed.

Lemma match_number_none_app : forall s q,
  Json.match_number s = None -> existsb is_delim s = true ->
  Json.match_number (s ++ q) = None.
Proof.
  intros s q H Hs. unfold Json.match_number in *.
  destruct (Json.match_integer s) as [[i s1]|] eqn:Hi.
  - exfalso. apply match_integer_suffix in Hi as [Hne _].
    destruct (Json.match_frac s1) as [f s2], (Json.match_exp s2) as [e s3].
    destruct f; [destruct e; [destruct i; [contradiction|destruct (_ =? _)]|]|];
      discriminate.
  - rewrite (match_integer_none_app _ q Hi Hs). reflexivity.
Qed.

Lemma scan_atom_suffix : forall s v r,
  Json.scan_atom s = Json.Scanned v r -> exists p, p <> [] /\ s = p ++ r.
Proof.
  intros s v r H. unfold Json.scan_atom in H.
  repeat match type of H with
  | context [strip_prefix ?p s] =>
      let E := fresh "E" in
      destruct (strip_prefix p s) eqn:E;
      [injection H as _ <-; apply strip_prefix_suffix in E; exists p;
       split; [discriminate | exact E] |]
  | context [Json.match_number s] =>
      let E := fresh "E" in
      destruct (Json.match_number s) as [[? ?]|] eqn:E;
      [injection H as _ <-; eapply match_number_suffix; exact E |]
  end.
  discriminate.
Qed.

Lemma scan_atom_not_exhausted : forall s, Json.scan_atom s <> Json.Exhausted.
Proof.
  intros s H. unfold Json.scan_atom in H.
  repeat match type of H with
  | context [match ?x with _ => _ end] => destruct x as [[? ?]|] + destruct x
  end; discriminate.
Qed.

Lemma scan_atom_app : forall s v r q,
  Json.scan_atom s = Json.Scanned v r -> delimited r ->
  Json.scan_atom (s ++ q) = Json.Scanned v (r ++ q).
Proof.
  intros s v r q H Hr.
  assert (Hs : existsb is_delim s = true).
  { destruct (scan_atom_suffix _ _ _ H) as (p & _ & ->).
    apply delimited_exists, Hr. }
  unfold Json.scan_atom in *.
  repeat match type of H with
  | context [strip_prefix ?p s] =>
      let E := fresh "E" in
      destruct (strip_prefix p s) eqn:E;
      [injection H as <- <-; rewrite (strip_prefix_app _ _ _ q E); reflexivity
      | rewrite (strip_prefix_app_none _ _ q E eq_refl Hs)]
  | context [Json.match_number s] =>
      let E := fresh "E" in
      destruct (Json.match_number s) as [[? ?]|] eqn:E;
      [injection H as <- <-; rewrite (match_number_app _ _ _ q E Hr); reflexivity
      | rewrite (match_number_none_app _ q E Hs)]
  end.
  discriminate.
Qed.

Lemma skip_ws_length : forall s, (length (Json.skip_ws s) <= length s)%nat.
Proof.
  induction s as [|c s IH]; simpl; [lia|].
  destruct (Json.is_ws c); simpl; lia.
Qed.

Lemma skip_ws_app : forall s q,
  Json.skip_ws s <> [] -> Json.skip_ws (s ++ q) = Json.skip_ws s ++ q.
Proof.
  induction s as [|c s IH]; intros q H; simpl in *; [contradiction|].
  destruct (Json.is_ws c); [auto | reflexivity].
Qed.

Lemma skip_ws_cons_app : forall s c r q,
  Json.skip_ws s = c :: r -> Json.skip_ws (s ++ q) = c :: r ++ q.
Proof.
  intros s c r q H. rewrite skip_ws_app; rewrite H; [reflexivity | discriminate].
Qed.

(** A text whose first non-blank character is a delimiter starts with a
    delimiter. *)
Lemma skip_ws_delimited : forall s c r,
  Json.skip_ws s = c :: r -> is_delim c = true -> delimited s.
Proof.
  intros [|a s] c r H Hc; [discriminate|]. simpl in *.
  destruct (Json.is_ws a) eqn:E.
  - unfold is_delim. rewrite E. reflexivity.
  - injection H as -> _. exact Hc.
Qed.

Ltac lengths :=
  repeat match goal with
  | H : Json.skip_ws ?s = _ |- _ =>
      let L := fresh "L" in
      pose proof (skip_ws_length s) as L; rewrite H in L; clear H
  | H : Json.scanstring ?s _ = Json.Scanned _ _ |- _ =>
      apply (scanstring_shorter (length s)) in H; [|lia]
  end;
  simpl in *; try lia.

(** Strings and literals raise nothing but decode errors. *)
Lemma scanstring_not_refused : forall k s acc e,
  (length s <= k)%nat ->
  Json.scanstring s acc <> Json.Refused e.
Proof.
  induction k as [|k IH]; intros s acc e Hlen H.
  - destruct s; [discriminate H | simpl in Hlen; lia].
  - destruct s as [|c s1]; [discriminate H|].
    simpl in H.
    repeat split_match H;
      match type of H with
      | Json.scanstring ?x _ = _ =>
          apply (IH x) in H; [exact H | simpl in *; lia]
      end.
Qed.

Lemma scan_atom_not_refused : forall s e, Json.scan_atom s <> Json.Refused e.
Proof.
  intros s e H. unfold Json.scan_atom in H.
  repeat match type of H with
  | context [match ?x with _ => _ end] => destruct x as [[? ?]|] + destruct x
  end; discriminate.
Qed.

(** What a scanning function leaves is the end of what it was given. *)
Lemma scanstring_suffix : forall k s acc v r,
  (length s <= k)%nat ->
  Json.scanstring s acc = Json.Scanned v r ->
  exists p, s = p ++ r.
Proof.
  induction k as [|k IH]; intros s acc v r Hlen H.
  - destruct s; [discriminate H | simpl in Hlen; lia].
  - destruct s as [|c s1]; [discriminate H|].
    simpl in H.
    repeat split_match H;
      try (injection H as _ <-;
           first [ exists [c]; reflexivity ]);
      match type of H with
      | Json.scanstring ?x _ = _ =>
          apply (IH x) in H; [|simpl in *; lia];
          let p := fresh "p" in
          destruct H as [p ->];
          first [ exists [c]; reflexivity
                | exists (c :: p); reflexivity
                | eexists (c :: _ :: p); reflexivity
                | eexists (c :: _ :: _ :: _ :: _ :: _ :: p); reflexivity
                | eexists (c :: _ :: _ :: _ :: _ :: _ :: _ :: _ :: _ :: _ ::
                           _ :: _ :: p); reflexivity ]
      end.
Qed.

Lemma skip_ws_suffix : forall s, exists p, s = p ++ Json.skip_ws s.
Proof.
  induction s as [|c s [p IH]]; [exists []; reflexivity|].
  simpl. destruct (Json.is_ws c).
  - exists (c :: p). simpl. f_equal. exact IH.
  - exists []. reflexivity.
Qed.

(** The cap on digits turns some integers into a refusal and leaves
    everything else as it is. *)
Lemma refuse_long_scanned : forall md s x v r,
  Json.refuse_long md s x = Json.Scanned v r -> x = Json.Scanned v r.
Proof.
  intros md s x v r H. unfold Json.refuse_long in H.
  destruct x as [[] ?| | |]; try exact H.
  destruct (Json.over_cap _ _); [discriminate | exact H].
Qed.

Lemma refuse_long_exhausted : forall md s x,
  Json.refuse_long md s x = Json.Exhausted -> x = Json.Exhausted.
Proof.
  intros md s x H. unfold Json.refuse_long in H.
  destruct x as [[] ?| | |]; try exact H.
  destruct (Json.over_cap _ _); [discriminate | exact H].
Qed.

Lemma int_digits_app : forall s v r q,
  Json.match_number s = Some (v, r) -> delimited r ->
  Json.int_digits (s ++ q) = Json.int_digits s.
Proof.
  intros s v r q H Hr.
  destruct (match_number_parts _ _ _ H) as (i & s1 & f & s2 & e & Hi & Hf & He).
  assert (Hs1 : s1 <> []).
  { apply match_frac_suffix in Hf as ->. apply match_exp_suffix in He as ->.
    destruct r; [contradiction|]. destruct f, e; discriminate. }
  unfold Json.int_digits.
  rewrite (match_integer_app _ _ _ q Hi Hs1), Hi. reflexivity.
Qed.

(** An integer comes from the number pattern. *)
Lemma scan_atom_int : forall s z r,
  Json.scan_atom s = Json.Scanned (PyInt z) r ->
  Json.match_number s = Some (PyInt z, r).
Proof.
  intros s z r H. unfold Json.scan_atom in H.
  repeat match type of H with
  | context [strip_prefix ?p s] =>
      destruct (strip_prefix p s); [discriminate H|]
  | context [Json.match_number s] =>
      let E := fresh "E" in
      destruct (Json.match_number s) as [[? ?]|] eqn:E;
      [injection H as -> ->; reflexivity|]
  end.
  discriminate.
Qed.

Lemma refuse_long_app : forall md s v r q,
  Json.refuse_long md s (Json.scan_atom s) = Json.Scanned v r ->
  delimited r ->
  Json.refuse_long md (s ++ q) (Json.scan_atom (s ++ q))
  = Json.Scanned v (r ++ q).
Proof.
  intros md s v r q H Hr.
  pose proof (refuse_long_scanned _ _ _ _ _ H) as Ha.
  rewrite (scan_atom_app _ _ _ q Ha Hr).
  rewrite Ha in H. unfold Json.refuse_long in *.
  destruct v; try reflexivity.
  rewrite (int_digits_app _ _ _ q (scan_atom_int _ _ _ Ha) Hr).
  destruct (Json.over_cap _ _); [discriminate | reflexivity].
Qed.

(** ** Text that ends with a closing brace *)

Lemma ends_closed_suffix : forall p r, ends_closed (p ++ r) -> ends_closed r.
Proof.
  intros p r H a c ->. apply (H (p ++ a) c). rewrite app_assoc. reflexivity.
Qed.

Lemma ends_closed_tail : forall c s, ends_closed (c :: s) -> ends_closed s.
Proof. intros c s H. exact (ends_closed_suffix [c] s H). Qed.

Lemma ends_closed_single : forall c, ends_closed [c] -> c = RBRACE.
Proof. intros c H. exact (H [] c eq_refl). Qed.

Lemma ends_closed_last : forall s,
  ends_closed s -> s <> [] -> exists p, s = p ++ [RBRACE].
Proof.
  intros s H Hs. destruct s as [|c s _] using rev_ind; [contradiction|].
  exists s. rewrite (H s c eq_refl). reflexivity.
Qed.

Lemma ends_closed_delim : forall s,
  ends_closed s -> s <> [] -> existsb is_delim s = true.
Proof.
  intros s H Hs. destruct (ends_closed_last s H Hs) as [p ->].
  rewrite existsb_app. simpl. apply orb_true_r.
Qed.

Lemma ends_closed_skip_ws : forall s, ends_closed s -> ends_closed (Json.skip_ws s).
Proof.
  intros s H. destruct (skip_ws_suffix s) as [p E]. rewrite E in H.
  eapply ends_closed_suffix, H.
Qed.

(** The digits stop before the end. *)
Lemma span_digits_closed : forall s ds r,
  ends_closed s -> s <> [] ->
  Json.span_digits s = (ds, r) -> r <> [].
Proof.
  induction s as [|c s IH]; intros ds r Hc Hs H; [contradiction|].
  simpl in H. destruct (Json.is_digit c) eqn:Ed.
  - destruct (Json.span_digits s) as [ds' r'] eqn:E. injection H as <- <-.
    apply (IH ds' r'); [eapply ends_closed_tail, Hc | | reflexivity].
    intros ->. apply ends_closed_single in Hc. subst c. discriminate Ed.
  - injection H as <- <-. discriminate.
Qed.

Lemma match_integer_closed : forall s i r q,
  ends_closed s ->
  Json.match_integer s = Some (i, r) ->
  r <> [] /\ Json.match_integer (s ++ q) = Some (i, r ++ q).
Proof.
  intros s i r q Hc H.
  assert (Hr : r <> []).
  { unfold Json.match_integer in H.
    destruct s as [|c s]; [discriminate|].
    destruct (c =? 45) eqn:E.
    - destruct s as [|d s]; [discriminate|].
      apply ends_closed_tail in Hc.
      destruct (d =? 48) eqn:E0.
      + injection H as <- <-. intros ->. apply ends_closed_single in Hc.
        subst d. discriminate E0.
      + destruct (Json.is_digit d) eqn:Ed; [|discriminate].
        destruct (Json.span_digits s) as [ds r'] eqn:Hs.
        injection H as <- <-.
        eapply (span_digits_closed s); [eapply ends_closed_tail, Hc | | exact Hs].
        intros ->. apply ends_closed_single in Hc. subst d. discriminate Ed.
    - destruct (c =? 48) eqn:E0.
      + injection H as <- <-. intros ->. apply ends_closed_single in Hc.
        subst c. discriminate E0.
      + destruct (Json.is_digit c) eqn:Ed; [|discriminate].
        destruct (Json.span_digits s) as [ds r'] eqn:Hs.
        injection H as <- <-.
        eapply (span_digits_closed s); [eapply ends_closed_tail, Hc | | exact Hs].
        intros ->. apply ends_closed_single in Hc. subst c. discriminate Ed. }
  split; [exact Hr | apply match_integer_app; assumption].
Qed.

Lemma match_frac_closed : forall s f r q,
  ends_closed s -> s <> [] ->
  Json.match_frac s = (f, r) ->
  r <> [] /\ Json.match_frac (s ++ q) = (f, r ++ q).
Proof.
  intros s f r q Hc Hs H. unfold Json.match_frac in *.
  destruct s as [|c s]; [contradiction|]. cbn [Datatypes.app].
  destruct (c =? 46) eqn:E; [|injection H as <- <-; split; [discriminate | reflexivity]].
  assert (Hs1 : s <> []).
  { intros ->. apply ends_closed_single in Hc. subst c. discriminate E. }
  destruct (Json.span_digits s) as [ds r'] eqn:Hd.
  pose proof (span_digits_closed s ds r' (ends_closed_tail _ _ Hc) Hs1 Hd) as Hr.
  rewrite (span_digits_app _ _ _ q Hd Hr).
  destruct ds; injection H as <- <-; split;
    try discriminate; try assumption; reflexivity.
Qed.

Lemma match_exp_closed : forall s e r q,
  ends_closed s -> s <> [] ->
  Json.match_exp s = (e, r) ->
  r <> [] /\ Json.match_exp (s ++ q) = (e, r ++ q).
Proof.
  intros s e r q Hc Hs H. unfold Json.match_exp in *.
  destruct s as [|c s]; [contradiction|]. cbn [Datatypes.app].
  destruct ((c =? 101) || (c =? 69)) eqn:E;
    [|injection H as <- <-; split; [discriminate | reflexivity]].
  assert (Hs1 : s <> []).
  { intros ->. apply ends_closed_single in Hc. subst c. discriminate E. }
  destruct s as [|d s]; [contradiction|]. cbn [Datatypes.app].
  pose proof (ends_closed_tail _ _ Hc) as Hc1.
  destruct ((d =? 45) || (d =? 43)) eqn:Ed.
  - assert (Hs2 : s <> []).
    { intros ->. apply ends_closed_single in Hc1. subst d. discriminate Ed. }
    destruct (Json.span_digits s) as [ds r'] eqn:Hd.
    pose proof (span_digits_closed s ds r' (ends_closed_tail _ _ Hc1) Hs2 Hd) as Hr.
    rewrite (span_digits_app _ _ _ q Hd Hr).
    destruct ds; injection H as <- <-; split;
      try discriminate; try assumption; reflexivity.
  - destruct (Json.span_digits (d :: s)) as [ds r'] eqn:Hd.
    pose proof (span_digits_closed (d :: s) ds r' Hc1 ltac:(discriminate) Hd) as Hr.
    change (d :: s ++ q) with ((d :: s) ++ q).
    rewrite (span_digits_app _ _ _ q Hd Hr).
    destruct ds; injection H as <- <-; split;
      try discriminate; try assumption; reflexivity.
Qed.

Lemma match_number_closed : forall s v r q,
  ends_closed s ->
  Json.match_number s = Some (v, r) ->
  Json.match_number (s ++ q) = Some (v, r ++ q).
Proof.
  intros s v r q Hc H.
  destruct (match_number_parts _ _ _ H) as (i & s1 & f & s2 & e & Hi & Hf & He).
  pose proof (match_integer_suffix _ _ _ Hi) as [_ Es].
  destruct (match_integer_closed _ _ _ q Hc Hi) as [Hs1 Hi'].
  assert (Hc1 : ends_closed s1) by (rewrite Es in Hc; eapply ends_closed_suffix, Hc).
  pose proof (match_frac_suffix _ _ _ Hf) as Es1.
  destruct (match_frac_closed _ _ _ q Hc1 Hs1 Hf) as [Hs2 Hf'].
  assert (Hc2 : ends_closed s2) by (rewrite Es1 in Hc1; eapply ends_closed_suffix, Hc1).
  destruct (match_exp_closed _ _ _ q Hc2 Hs2 He) as [_ He'].
  unfold Json.match_number in *.
  rewrite Hi', Hf', He'. rewrite Hi, Hf, He in H.
  destruct f; [destruct e; [destruct i; [discriminate|destruct (_ =? _)]|]|];
    injection H as <-; reflexivity.
Qed.

Lemma int_digits_closed : forall s v r q,
  ends_closed s ->
  Json.match_number s = Some (v, r) ->
  Json.int_digits (s ++ q) = Json.int_digits s.
Proof.
  intros s v r q Hc H.
  destruct (match_number_parts _ _ _ H) as (i & s1 & f & s2 & e & Hi & _).
  destruct (match_integer_closed _ _ _ q Hc Hi) as [_ Hi'].
  unfold Json.int_digits. rewrite Hi, Hi'. reflexivity.
Qed.

(** A refusal of a long integer does not depend on the text after the
    closing brace. *)
Lemma refuse_long_closed : forall md s e q,
  ends_closed s ->
  Json.refuse_long md s (Json.scan_atom s) = Json.Refused e ->
  Json.refuse_long md (s ++ q) (Json.scan_atom (s ++ q)) = Json.Refused e.
Proof.
  intros md s e q Hc H. unfold Json.refuse_long in H.
  destruct (Json.scan_atom s) as [v r| |e0|] eqn:Ea; try discriminate.
  2:{ exfalso. eapply scan_atom_not_refused, Ea. }
  destruct v; try discriminate.
  destruct (Json.over_cap md (Json.int_digits s)) eqn:Eo; [|discriminate].
  pose proof (scan_atom_int _ _ _ Ea) as Hn.
  assert (Ha : Json.scan_atom (s ++ q) = Json.Scanned (PyInt z) (r ++ q)).
  { unfold Json.scan_atom in *.
    assert (Hs : existsb is_delim s = true).
    { apply ends_closed_delim; [exact Hc|]. intros ->. discriminate Hn. }
    repeat match type of Ea with
    | context [strip_prefix ?p s] =>
        let E := fresh "E" in
        destruct (strip_prefix p s) eqn:E; [discriminate Ea|];
        rewrite (strip_prefix_app_none _ _ q E eq_refl Hs)
    end.
    rewrite (match_number_closed _ _ _ q Hc Hn). reflexivity. }
  rewrite Ha. unfold Json.refuse_long.
  rewrite (int_digits_closed _ _ _ q Hc Hn), Eo. exact H.
Qed.

(** ** The scanner *)

Section ScanFacts.

Variable md : nat.

(** Every scanning function consumes at least one character. *)
Lemma scan_shorter : forall n,
  (forall room s v r, Json.scan_once md n room s = Json.Scanned v r ->
     (length r < length s)%nat) /\
  (forall room s acc ps r, Json.object_items md n room s acc = Json.Scanned ps r ->
     (length r < length s)%nat) /\
  (forall room s acc vs r, Json.array_items md n room s acc = Json.Scanned vs r ->
     (length r < length s)%nat).
Proof.
  induction n as [|n (IH1 & IH2 & IH3)]; [repeat split; discriminate|].
  repeat split.
  - intros room s v r H. destruct s as [|c s1]; [discriminate|].
    cbn [Json.scan_once] in H.
    destruct (c =? QUOTE); [|destruct (c =? LBRACE); [|destruct (c =? LBRACKET)]].
    + destruct (Json.scanstring s1 []) eqn:E; try discriminate.
      injection H as _ <-. lengths.
    + destruct room as [|room]; [discriminate|].
      destruct (Json.skip_ws s1) as [|d s2] eqn:E; [discriminate|].
      destruct (d =? RBRACE); [injection H as _ <-; lengths|].
      destruct (d =? QUOTE); [|discriminate].
      destruct (Json.object_items md n room s2 []) eqn:E2; try discriminate.
      injection H as _ <-. apply IH2 in E2. lengths.
    + destruct room as [|room]; [discriminate|].
      destruct (Json.skip_ws s1) as [|d s2] eqn:E; [discriminate|].
      destruct (d =? RBRACKET); [injection H as _ <-; lengths|].
      destruct (Json.array_items md n room (d :: s2) []) eqn:E2; try discriminate.
      injection H as _ <-. apply IH3 in E2. lengths.
    + apply refuse_long_scanned in H.
      destruct (scan_atom_suffix _ _ _ H) as (p & Hp & E).
      apply (f_equal (@length N)) in E. rewrite length_app in E.
      destruct p; [contradiction|]. simpl in *. lia.
  - intros room s acc ps r H. cbn [Json.object_items] in H.
    destruct (Json.scanstring s []) as [key r0| | |] eqn:E; try discriminate.
    destruct (Json.skip_ws r0) as [|c r1] eqn:E1; [discriminate|].
    destruct (c =? COLON); [|discriminate].
    destruct (Json.scan_once md n room (Json.skip_ws r1)) as [v r2| | |] eqn:E2;
      try discriminate.
    apply IH1 in E2. pose proof (skip_ws_length r1).
    destruct (Json.skip_ws r2) as [|d r3] eqn:E3; [discriminate|].
    destruct (d =? RBRACE); [injection H as _ <-; lengths|].
    destruct (d =? COMMA); [|discriminate].
    destruct (Json.skip_ws r3) as [|q r4] eqn:E4; [discriminate|].
    destruct (q =? QUOTE); [|discriminate].
    apply IH2 in H. lengths.
  - intros room s acc vs r H. cbn [Json.array_items] in H.
    destruct (Json.scan_once md n room s) as [v r0| | |] eqn:E; try discriminate.
    apply IH1 in E.
    destruct (Json.skip_ws r0) as [|d r1] eqn:E1; [discriminate|].
    destruct (d =? RBRACKET); [injection H as _ <-; lengths|].
    destruct (d =? COMMA); [|discriminate].
    apply IH3 in H. pose proof (skip_ws_length r1). lengths.
Qed.

(** The budget [raw_decode] gives is never used up. *)
Lemma scan_fuel : forall n,
  (forall room s, (2 * length s < n)%nat ->
     Json.scan_once md n room s <> Json.Exhausted) /\
  (forall room s acc, (2 * length s < n)%nat ->
     Json.object_items md n room s acc <> Json.Exhausted) /\
  (forall room s acc, (2 * length s + 1 < n)%nat ->
     Json.array_items md n room s acc <> Json.Exhausted).
Proof.
  induction n as [|n (IH1 & IH2 & IH3)]; [repeat split; intros; lia|].
  repeat split.
  - intros room s Hn H. destruct s as [|c s1]; [discriminate|].
    cbn [Json.scan_once] in H. cbn [length] in Hn.
    destruct (c =? QUOTE); [|destruct (c =? LBRACE); [|destruct (c =? LBRACKET)]].
    + destruct (Json.scanstring s1 []) eqn:E; try discriminate.
      eapply scanstring_not_exhausted; [|exact E]. reflexivity.
    + destruct room as [|room]; [discriminate|].
      destruct (Json.skip_ws s1) as [|d s2] eqn:E; [discriminate|].
      destruct (d =? RBRACE); [discriminate|].
      destruct (d =? QUOTE); [|discriminate].
      destruct (Json.object_items md n room s2 []) eqn:E2; try discriminate.
      apply IH2 in E2; [exact E2|]. lengths.
    + destruct room as [|room]; [discriminate|].
      destruct (Json.skip_ws s1) as [|d s2] eqn:E; [discriminate|].
      destruct (d =? RBRACKET); [discriminate|].
      destruct (Json.array_items md n room (d :: s2) []) eqn:E2; try discriminate.
      apply IH3 in E2; [exact E2|]. lengths.
    + apply refuse_long_exhausted in H. eapply scan_atom_not_exhausted, H.
  - intros room s acc Hn H. cbn [Json.object_items] in H.
    destruct (Json.scanstring s []) as [key r0| | |] eqn:E; try discriminate.
    2:{ eapply scanstring_not_exhausted; [|exact E]. reflexivity. }
    destruct (Json.skip_ws r0) as [|c r1] eqn:E1; [discriminate|].
    destruct (c =? COLON); [|discriminate].
    pose proof (skip_ws_length r1).
    destruct (Json.scan_once md n room (Json.skip_ws r1)) as [v r2| | |] eqn:E2;
      try discriminate.
    2:{ apply IH1 in E2; [exact E2|]. lengths. }
    apply (proj1 (scan_shorter n)) in E2.
    destruct (Json.skip_ws r2) as [|d r3] eqn:E3; [discriminate|].
    destruct (d =? RBRACE); [discriminate|].
    destruct (d =? COMMA); [|discriminate].
    destruct (Json.skip_ws r3) as [|q r4] eqn:E4; [discriminate|].
    destruct (q =? QUOTE); [|discriminate].
    apply IH2 in H; [exact H|]. lengths.
  - intros room s acc Hn H. cbn [Json.array_items] in H.
    destruct (Json.scan_once md n room s) as [v r0| | |] eqn:E; try discriminate.
    2:{ apply IH1 in E; [exact E | lia]. }
    apply (proj1 (scan_shorter n)) in E.
    destruct (Json.skip_ws r0) as [|d r1] eqn:E1; [discriminate|].
    destruct (d =? RBRACKET); [discriminate|].
    destruct (d =? COMMA); [|discriminate].
    pose proof (skip_ws_length r1).
    apply IH3 in H; [exact H|]. lengths.
Qed.

(** An answer obtained within a budget is obtained within any larger
    one. *)
Lemma scan_mono : forall n,
  (forall m room s x, (n <= m)%nat -> Json.scan_once md n room s = x ->
     x <> Json.Exhausted -> Json.scan_once md m room s = x) /\
  (forall m room s acc x, (n <= m)%nat ->
     Json.object_items md n room s acc = x ->
     x <> Json.Exhausted -> Json.object_items md m room s acc = x) /\
  (forall m room s acc x, (n <= m)%nat ->
     Json.array_items md n room s acc = x ->
     x <> Json.Exhausted -> Json.array_items md m room s acc = x).
Proof.
  induction n as [|n (IH1 & IH2 & IH3)];
    [repeat split; intros; subst; contradiction|].
  repeat split.
  - intros [|m] room s x Hm H Hx; [lia|]. assert (Hnm : (n <= m)%nat) by lia.
    subst x. destruct s as [|c s1]; [reflexivity|].
    cbn [Json.scan_once] in *.
    destruct (c =? QUOTE); [reflexivity|].
    destruct (c =? LBRACE).
    + destruct room as [|room]; [reflexivity|].
      destruct (Json.skip_ws s1) as [|d s2]; [reflexivity|].
      destruct (d =? RBRACE); [reflexivity|].
      destruct (d =? QUOTE); [|reflexivity].
      destruct (Json.object_items md n room s2 []) eqn:E;
        try (rewrite (IH2 m _ _ _ _ Hnm E ltac:(discriminate)); reflexivity).
      contradiction.
    + destruct (c =? LBRACKET); [|reflexivity].
      destruct room as [|room]; [reflexivity|].
      destruct (Json.skip_ws s1) as [|d s2]; [reflexivity|].
      destruct (d =? RBRACKET); [reflexivity|].
      destruct (Json.array_items md n room (d :: s2) []) eqn:E;
        try (rewrite (IH3 m _ _ _ _ Hnm E ltac:(discriminate)); reflexivity).
      contradiction.
  - intros [|m] room s acc x Hm H Hx; [lia|]. assert (Hnm : (n <= m)%nat) by lia.
    subst x. cbn [Json.object_items] in *.
    destruct (Json.scanstring s []) as [key r0| | |]; try reflexivity.
    destruct (Json.skip_ws r0) as [|c r1]; [reflexivity|].
    destruct (c =? COLON); [|reflexivity].
    destruct (Json.scan_once md n room (Json.skip_ws r1)) as [v r2| | |] eqn:E;
      try (rewrite (IH1 m _ _ _ Hnm E ltac:(discriminate)); try reflexivity);
      [|contradiction].
    destruct (Json.skip_ws r2) as [|d r3]; [reflexivity|].
    destruct (d =? RBRACE); [reflexivity|].
    destruct (d =? COMMA); [|reflexivity].
    destruct (Json.skip_ws r3) as [|q r4]; [reflexivity|].
    destruct (q =? QUOTE); [|reflexivity].
    apply IH2; [assumption | reflexivity | assumption].
  - intros [|m] room s acc x Hm H Hx; [lia|]. assert (Hnm : (n <= m)%nat) by lia.
    subst x. cbn [Json.array_items] in *.
    destruct (Json.scan_once md n room s) as [v r0| | |] eqn:E;
      try (rewrite (IH1 m _ _ _ Hnm E ltac:(discriminate)); try reflexivity);
      [|contradiction].
    destruct (Json.skip_ws r0) as [|d r1]; [reflexivity|].
    destruct (d =? RBRACKET); [reflexivity|].
    destruct (d =? COMMA); [|reflexivity].
    apply IH3; [assumption | reflexivity | assumption].
Qed.

Lemma scan_once_nil : forall n room v r,
  Json.scan_once md n room [] <> Json.Scanned v r.
Proof. intros [|n] room v r; discriminate. Qed.

Lemma scan_once_nil_refused : forall n room e,
  Json.scan_once md n room [] <> Json.Refused e.
Proof. intros [|n] room e; discriminate. Qed.

(** What was scanned does not depend on the text after it, provided the
    value ends by itself (a string, an object, an array) or is followed by a
    delimiter. *)
Lemma scan_app : forall n,
  (forall room s v r q, Json.scan_once md n room s = Json.Scanned v r ->
     delimited r \/ opens_compound s ->
     Json.scan_once md n room (s ++ q) = Json.Scanned v (r ++ q)) /\
  (forall room s acc ps r q,
     Json.object_items md n room s acc = Json.Scanned ps r ->
     Json.object_items md n room (s ++ q) acc = Json.Scanned ps (r ++ q)) /\
  (forall room s acc vs r q,
     Json.array_items md n room s acc = Json.Scanned vs r ->
     Json.array_items md n room (s ++ q) acc = Json.Scanned vs (r ++ q)).
Proof.
  induction n as [|n (IH1 & IH2 & IH3)]; [repeat split; discriminate|].
  repeat split.
  - intros room s v r q H Hr. destruct s as [|c s1]; [discriminate|].
    cbn [Json.scan_once] in H. cbn [Datatypes.app Json.scan_once].
    destruct (c =? QUOTE) eqn:Eq.
    { destruct (Json.scanstring s1 []) eqn:E; try discriminate.
      injection H as <- <-.
      rewrite (scanstring_app (length s1) _ _ _ _ q (le_n _) E). reflexivity. }
    destruct (c =? LBRACE) eqn:Eb.
    { destruct room as [|room]; [discriminate|].
      destruct (Json.skip_ws s1) as [|d s2] eqn:E; [discriminate|].
      rewrite (skip_ws_cons_app _ _ _ q E).
      destruct (d =? RBRACE); [injection H as <- <-; reflexivity|].
      destruct (d =? QUOTE); [|discriminate].
      destruct (Json.object_items md n room s2 []) eqn:E2; try discriminate.
      injection H as <- <-. rewrite (IH2 _ _ _ _ _ q E2). reflexivity. }
    destruct (c =? LBRACKET) eqn:Ek.
    { destruct room as [|room]; [discriminate|].
      destruct (Json.skip_ws s1) as [|d s2] eqn:E; [discriminate|].
      rewrite (skip_ws_cons_app _ _ _ q E).
      destruct (d =? RBRACKET); [injection H as <- <-; reflexivity|].
      destruct (Json.array_items md n room (d :: s2) []) eqn:E2; try discriminate.
      injection H as <- <-.
      change (d :: s2 ++ q) with ((d :: s2) ++ q).
      rewrite (IH3 _ _ _ _ _ q E2). reflexivity. }
    change (c :: s1 ++ q) with ((c :: s1) ++ q).
    apply refuse_long_app; [exact H|].
    destruct Hr as [Hr|Hr]; [exact Hr|].
    simpl in Hr. rewrite Eq, Eb, Ek in Hr. discriminate.
  - intros room s acc ps r q H.
    cbn [Json.object_items] in H. cbn [Json.object_items].
    destruct (Json.scanstring s []) as [key r0| | |] eqn:E; try discriminate.
    rewrite (scanstring_app (length s) _ _ _ _ q (le_n _) E).
    destruct (Json.skip_ws r0) as [|c r1] eqn:E1; [discriminate|].
    rewrite (skip_ws_cons_app _ _ _ q E1).
    destruct (c =? COLON); [|discriminate].
    destruct (Json.scan_once md n room (Json.skip_ws r1)) as [v r2| | |] eqn:E2;
      try discriminate.
    assert (Hne : Json.skip_ws r1 <> []).
    { intros Hnil. rewrite Hnil in E2. eapply scan_once_nil, E2. }
    rewrite (skip_ws_app _ q Hne).
    destruct (Json.skip_ws r2) as [|d r3] eqn:E3; [discriminate|].
    assert (Hd : delimited r2).
    { destruct (d =? RBRACE) eqn:Ed; [|destruct (d =? COMMA) eqn:Ec];
        try discriminate; apply N.eqb_eq in Ed || apply N.eqb_eq in Ec;
        subst d; eapply skip_ws_delimited; eauto. }
    rewrite (IH1 _ _ _ _ q E2 (or_introl Hd)).
    rewrite (skip_ws_cons_app _ _ _ q E3).
    destruct (d =? RBRACE); [injection H as <- <-; reflexivity|].
    destruct (d =? COMMA); [|discriminate].
    destruct (Json.skip_ws r3) as [|k r4] eqn:E4; [discriminate|].
    rewrite (skip_ws_cons_app _ _ _ q E4).
    destruct (k =? QUOTE); [|discriminate].
    apply IH2, H.
  - intros room s acc vs r q H.
    cbn [Json.array_items] in H. cbn [Json.array_items].
    destruct (Json.scan_once md n room s) as [v r0| | |] eqn:E; try discriminate.
    destruct (Json.skip_ws r0) as [|d r1] eqn:E1; [discriminate|].
    assert (Hd : delimited r0).
    { destruct (d =? RBRACKET) eqn:Ed; [|destruct (d =? COMMA) eqn:Ec];
        try discriminate; apply N.eqb_eq in Ed || apply N.eqb_eq in Ec;
        subst d; eapply skip_ws_delimited; eauto. }
    rewrite (IH1 _ _ _ _ q E (or_introl Hd)).
    rewrite (skip_ws_cons_app _ _ _ q E1).
    destruct (d =? RBRACKET); [injection H as <- <-; reflexivity|].
    destruct (d =? COMMA); [|discriminate].
    assert (Hne : Json.skip_ws r1 <> []).
    { intros Hnil. rewrite Hnil in H. destruct n; [discriminate|].
      cbn [Json.array_items] in H. destruct n; discriminate. }
    rewrite (skip_ws_app _ q Hne). apply IH3, H.
Qed.

(** What a scanning function leaves is the end of what it was given. *)
Lemma scan_suffix : forall n,
  (forall room s v r, Json.scan_once md n room s = Json.Scanned v r ->
     exists p, s = p ++ r) /\
  (forall room s acc ps r, Json.object_items md n room s acc = Json.Scanned ps r ->
     exists p, s = p ++ r) /\
  (forall room s acc vs r, Json.array_items md n room s acc = Json.Scanned vs r ->
     exists p, s = p ++ r).
Proof.
  assert (Hcut : forall (a b c : list N) x, Json.skip_ws b = x :: c ->
            (exists p, a = p ++ b) -> exists p, a = p ++ c).
  { intros a b c x E [p ->]. destruct (skip_ws_suffix b) as [p' Hp'].
    rewrite E in Hp'. exists (p ++ p' ++ [x]).
    rewrite Hp' at 1. rewrite <- !app_assoc. reflexivity. }
  assert (Hin : forall (a b : list N),
            (exists p, Json.skip_ws a = p ++ b) -> exists p, a = p ++ b).
  { intros a b [p Hp]. destruct (skip_ws_suffix a) as [p' Hp'].
    exists (p' ++ p). rewrite <- app_assoc, <- Hp. exact Hp'. }
  assert (Htr : forall (a b c : list N),
            (exists p, a = p ++ b) -> (exists p, b = p ++ c) ->
            exists p, a = p ++ c).
  { intros a b c [p ->] [p' ->]. exists (p ++ p'). apply app_assoc. }
  induction n as [|n (IH1 & IH2 & IH3)]; [repeat split; discriminate|].
  repeat split.
  - intros room s v r H. destruct s as [|c s1]; [discriminate|].
    cbn [Json.scan_once] in H.
    destruct (c =? QUOTE); [|destruct (c =? LBRACE); [|destruct (c =? LBRACKET)]].
    + destruct (Json.scanstring s1 []) eqn:E; try discriminate.
      injection H as _ <-.
      apply (scanstring_suffix (length s1)) in E as [p ->]; [|lia].
      exists (c :: p). reflexivity.
    + destruct room as [|room]; [discriminate|].
      destruct (Json.skip_ws s1) as [|d s2] eqn:E; [discriminate|].
      assert (H2 : exists p, c :: s1 = p ++ s2).
      { apply (Hcut _ s1 _ d E). exists [c]. reflexivity. }
      destruct (d =? RBRACE); [injection H as _ <-; exact H2|].
      destruct (d =? QUOTE); [|discriminate].
      destruct (Json.object_items md n room s2 []) eqn:E2; try discriminate.
      injection H as _ <-. apply IH2 in E2. eapply Htr; eassumption.
    + destruct room as [|room]; [discriminate|].
      destruct (Json.skip_ws s1) as [|d s2] eqn:E; [discriminate|].
      assert (H2 : exists p, c :: s1 = p ++ d :: s2).
      { destruct (skip_ws_suffix s1) as [p Hp]. rewrite E in Hp.
        exists (c :: p). simpl. f_equal. exact Hp. }
      destruct (d =? RBRACKET).
      { injection H as _ <-. eapply Htr; [exact H2|]. exists [d]. reflexivity. }
      destruct (Json.array_items md n room (d :: s2) []) eqn:E2; try discriminate.
      injection H as _ <-. apply IH3 in E2. eapply Htr; eassumption.
    + apply refuse_long_scanned in H.
      destruct (scan_atom_suffix _ _ _ H) as (p & _ & E). eauto.
  - intros room s acc ps r H. cbn [Json.object_items] in H.
    destruct (Json.scanstring s []) as [key r0| | |] eqn:E; try discriminate.
    apply (scanstring_suffix (length s)) in E; [|lia].
    destruct (Json.skip_ws r0) as [|c r1] eqn:E1; [discriminate|].
    pose proof (Hcut _ _ _ _ E1 E) as H1.
    destruct (c =? COLON); [|discriminate].
    destruct (Json.scan_once md n room (Json.skip_ws r1)) as [v r2| | |] eqn:E2;
      try discriminate.
    apply IH1, Hin in E2. pose proof (Htr _ _ _ H1 E2) as H2.
    destruct (Json.skip_ws r2) as [|d r3] eqn:E3; [discriminate|].
    pose proof (Hcut _ _ _ _ E3 H2) as H3.
    destruct (d =? RBRACE); [injection H as _ <-; exact H3|].
    destruct (d =? COMMA); [|discriminate].
    destruct (Json.skip_ws r3) as [|q r4] eqn:E4; [discriminate|].
    pose proof (Hcut _ _ _ _ E4 H3) as H4.
    destruct (q =? QUOTE); [|discriminate].
    apply IH2 in H. eapply Htr; eassumption.
  - intros room s acc vs r H. cbn [Json.array_items] in H.
    destruct (Json.scan_once md n room s) as [v r0| | |] eqn:E; try discriminate.
    apply IH1 in E.
    destruct (Json.skip_ws r0) as [|d r1] eqn:E1; [discriminate|].
    pose proof (Hcut _ _ _ _ E1 E) as H1.
    destruct (d =? RBRACKET); [injection H as _ <-; exact H1|].
    destruct (d =? COMMA); [|discriminate].
    apply IH3, Hin in H. eapply Htr; eassumption.
Qed.

Lemma ends_closed_rest : forall a b, ends_closed a -> (exists p, a = p ++ b) -> ends_closed b.
Proof. intros a b H [p ->]. eapply ends_closed_suffix, H. Qed.

(** What the interpreter refuses in a text that ends with a closing brace,
    it refuses whatever follows the text. *)
Lemma scan_refused_app : forall n,
  (forall room s e q, ends_closed s ->
     Json.scan_once md n room s = Json.Refused e ->
     Json.scan_once md n room (s ++ q) = Json.Refused e) /\
  (forall room s acc e q, ends_closed s ->
     Json.object_items md n room s acc = Json.Refused e ->
     Json.object_items md n room (s ++ q) acc = Json.Refused e) /\
  (forall room s acc e q, ends_closed s ->
     Json.array_items md n room s acc = Json.Refused e ->
     Json.array_items md n room (s ++ q) acc = Json.Refused e).
Proof.
  induction n as [|n (IH1 & IH2 & IH3)]; [repeat split; discriminate|].
  repeat split.
  - intros room s e q Hc H. destruct s as [|c s1]; [discriminate|].
    cbn [Json.scan_once] in H. cbn [Datatypes.app Json.scan_once].
    destruct (c =? QUOTE) eqn:Eq.
    { destruct (Json.scanstring s1 []) eqn:E; try discriminate.
      exfalso. eapply (scanstring_not_refused (length s1)), E. lia. }
    destruct (c =? LBRACE) eqn:Eb.
    { destruct room as [|room]; [exact H|].
      destruct (Json.skip_ws s1) as [|d s2] eqn:E; [discriminate|].
      rewrite (skip_ws_cons_app _ _ _ q E).
      destruct (d =? RBRACE); [discriminate|].
      destruct (d =? QUOTE); [|discriminate].
      destruct (Json.object_items md n room s2 []) eqn:E2; try discriminate.
      injection H as <-. rewrite (IH2 room s2 [] e0 q); [reflexivity | | exact E2].
      eapply ends_closed_rest; [exact Hc|].
      destruct (skip_ws_suffix s1) as [p Hp]. rewrite E in Hp.
      exists (c :: p ++ [d]). simpl. f_equal. rewrite Hp at 1.
      rewrite <- app_assoc. reflexivity. }
    destruct (c =? LBRACKET) eqn:Ek.
    { destruct room as [|room]; [exact H|].
      destruct (Json.skip_ws s1) as [|d s2] eqn:E; [discriminate|].
      rewrite (skip_ws_cons_app _ _ _ q E).
      destruct (d =? RBRACKET); [discriminate|].
      destruct (Json.array_items md n room (d :: s2) []) eqn:E2; try discriminate.
      injection H as <-.
      change (d :: s2 ++ q) with ((d :: s2) ++ q).
      rewrite (IH3 room (d :: s2) [] e0 q); [reflexivity | | exact E2].
      eapply ends_closed_rest; [exact Hc|].
      destruct (skip_ws_suffix s1) as [p Hp]. rewrite E in Hp.
      exists (c :: p). simpl. f_equal. exact Hp. }
    change (c :: s1 ++ q) with ((c :: s1) ++ q).
    apply refuse_long_closed; assumption.
  - intros room s acc e q Hc H.
    cbn [Json.object_items] in H. cbn [Json.object_items].
    destruct (Json.scanstring s []) as [key r0| | |] eqn:E; try discriminate.
    2:{ exfalso. eapply (scanstring_not_refused (length s)), E. lia. }
    rewrite (scanstring_app (length s) _ _ _ _ q (le_n _) E).
    apply (scanstring_suffix (length s)) in E; [|lia].
    pose proof (ends_closed_rest _ _ Hc E) as Hc0.
    destruct (Json.skip_ws r0) as [|c r1] eqn:E1; [discriminate|].
    rewrite (skip_ws_cons_app _ _ _ q E1).
    assert (Hc1 : ends_closed r1).
    { apply ends_closed_skip_ws in Hc0. rewrite E1 in Hc0.
      eapply ends_closed_tail, Hc0. }
    destruct (c =? COLON); [|discriminate].
    pose proof (ends_closed_skip_ws _ Hc1) as Hc1'.
    destruct (Json.scan_once md n room (Json.skip_ws r1)) as [v r2| |e0|] eqn:E2;
      try discriminate.
    2:{ assert (Hne : Json.skip_ws r1 <> []).
        { intros Hnil. rewrite Hnil in E2. eapply scan_once_nil_refused, E2. }
        rewrite (skip_ws_app _ q Hne).
        rewrite (IH1 _ _ _ q Hc1' E2). exact H. }
    assert (Hne : Json.skip_ws r1 <> []).
    { intros Hnil. rewrite Hnil in E2. eapply scan_once_nil, E2. }
    rewrite (skip_ws_app _ q Hne).
    destruct (Json.skip_ws r2) as [|d r3] eqn:E3; [discriminate|].
    assert (Hd : delimited r2).
    { destruct (d =? RBRACE) eqn:Ed; [|destruct (d =? COMMA) eqn:Ec];
        try discriminate; apply N.eqb_eq in Ed || apply N.eqb_eq in Ec;
        subst d; eapply skip_ws_delimited; eauto. }
    rewrite (proj1 (scan_app n) _ _ _ _ q E2 (or_introl Hd)).
    rewrite (skip_ws_cons_app _ _ _ q E3).
    pose proof (ends_closed_rest _ _ Hc1' (proj1 (scan_suffix n) _ _ _ _ E2)) as Hc2.
    assert (Hc3 : ends_closed r3).
    { apply ends_closed_skip_ws in Hc2. rewrite E3 in Hc2.
      eapply ends_closed_tail, Hc2. }
    destruct (d =? RBRACE); [discriminate|].
    destruct (d =? COMMA); [|discriminate].
    destruct (Json.skip_ws r3) as [|k r4] eqn:E4; [discriminate|].
    rewrite (skip_ws_cons_app _ _ _ q E4).
    assert (Hc4 : ends_closed r4).
    { apply ends_closed_skip_ws in Hc3. rewrite E4 in Hc3.
      eapply ends_closed_tail, Hc3. }
    destruct (k =? QUOTE); [|discriminate].
    apply IH2; assumption.
  - intros room s acc e q Hc H.
    cbn [Json.array_items] in H. cbn [Json.array_items].
    destruct (Json.scan_once md n room s) as [v r0| |e0|] eqn:E; try discriminate.
    2:{ rewrite (IH1 _ _ _ q Hc E). exact H. }
    destruct (Json.skip_ws r0) as [|d r1] eqn:E1; [discriminate|].
    assert (Hd : delimited r0).
    { destruct (d =? RBRACKET) eqn:Ed; [|destruct (d =? COMMA) eqn:Ec];
        try discriminate; apply N.eqb_eq in Ed || apply N.eqb_eq in Ec;
        subst d; eapply skip_ws_delimited; eauto. }
    rewrite (proj1 (scan_app n) _ _ _ _ q E (or_introl Hd)).
    rewrite (skip_ws_cons_app _ _ _ q E1).
    pose proof (ends_closed_rest _ _ Hc (proj1 (scan_suffix n) _ _ _ _ E)) as Hc0.
    assert (Hc1 : ends_closed r1).
    { apply ends_closed_skip_ws in Hc0. rewrite E1 in Hc0.
      eapply ends_closed_tail, Hc0. }
    destruct (d =? RBRACKET); [discriminate|].
    destruct (d =? COMMA); [|discriminate].
    assert (Hne : Json.skip_ws r1 <> []).
    { intros Hnil. rewrite Hnil in H. destruct n; [discriminate|].
      cbn [Json.array_items] in H. destruct n; discriminate. }
    rewrite (skip_ws_app _ q Hne). apply IH3; [|exact H].
    apply ends_closed_skip_ws, Hc1.
Qed.

End ScanFacts.
(** * Facts about the matcher *)

Section MatcherFacts.
Context {A : Type}.

Lemma star_greedy_sound : forall k s (cont : list N -> option A) a,
  Re.star_greedy k s cont = Some a ->
  exists w s', s = w ++ s' /\
    Forall (fun c => Re.cls_matches k c = true) w /\ cont s' = Some a.
Proof.
  induction s as [|c s IH]; intros cont a H; simpl in H.
  - exists [], []. auto.
  - destruct (Re.cls_matches k c) eqn:E.
    + destruct (Re.star_greedy k s cont) eqn:E1.
      * injection H as ->. destruct (IH _ _ E1) as (w & s' & -> & Hw & Hc).
        exists (c :: w), s'. auto.
      * exists [], (c :: s). auto.
    + exists [], (c :: s). auto.
Qed.

Lemma star_lazy_sound : forall k s (cont : list N -> option A) a,
  Re.star_lazy k s cont = Some a ->
  exists w s', s = w ++ s' /\
    Forall (fun c => Re.cls_matches k c = true) w /\ cont s' = Some a.
Proof.
  induction s as [|c s IH]; intros cont a H; simpl in H.
  - destruct (cont []) eqn:E; [|discriminate].
    exists [], []. injection H as ->. auto.
  - destruct (cont (c :: s)) eqn:E.
    + injection H as ->. exists [], (c :: s). auto.
    + destruct (Re.cls_matches k c) eqn:Ec; [|discriminate].
      destruct (IH _ _ H) as (w & s' & -> & Hw & Hc).
      exists (c :: w), s'. auto.
Qed.

Lemma star_greedy_complete : forall k w s' (cont : list N -> option A),
  Forall (fun c => Re.cls_matches k c = true) w ->
  is_Some (cont s') ->
  is_Some (Re.star_greedy k (w ++ s') cont).
Proof.
  intros k w s' cont Hw Hc. induction Hw as [|c w Hc' Hw IH]; simpl.
  - destruct s' as [|c s']; simpl; [exact Hc|].
    destruct (Re.cls_matches k c); [|exact Hc].
    destruct (Re.star_greedy k s' cont); [eauto | exact Hc].
  - rewrite Hc'. destruct IH as [a ->]. eauto.
Qed.

Lemma star_lazy_complete : forall k w s' (cont : list N -> option A),
  Forall (fun c => Re.cls_matches k c = true) w ->
  is_Some (cont s') ->
  is_Some (Re.star_lazy k (w ++ s') cont).
Proof.
  intros k w s' cont Hw Hc. induction Hw as [|c w Hc' Hw IH]; simpl.
  - destruct s' as [|c s']; simpl; destruct Hc as [a ->]; eauto.
  - destruct (cont (c :: w ++ s')); [eauto|]. rewrite Hc'. exact IH.
Qed.
End MatcherFacts.

Lemma take_app_rest : forall (w s' : list N),
  take (length (w ++ s') - length s') (w ++ s') = w.
Proof.
  intros w s'. rewrite length_app.
  replace (length w + length s' - length s')%nat with (length w) by lia.
  apply take_app_length.
Qed.

(** Whatever the matcher accepts is a match in the sense of [matches]. *)
Lemma match_at_sound : forall r A s cap (cont : list N -> option (list N) -> option A) a,
  Re.match_at r s cap cont = Some a ->
  exists w s' cap', s = w ++ s' /\ matches r w cap cap' /\ cont s' cap' = Some a.
Proof.
  induction r as [l|k|r1 IH1 r2 IH2|r1 IH1|k|k|r1 IH1];
    intros A s cap cont a H; simpl in H.
  - destruct (strip_prefix l s) as [s'|] eqn:E; [|discriminate].
    apply strip_prefix_suffix in E. exists l, s', cap.
    auto using matches_lit.
  - destruct s as [|c s]; [discriminate|].
    destruct (Re.cls_matches k c) eqn:E; [|discriminate].
    exists [c], s, cap. auto using matches_one.
  - destruct (IH1 _ _ _ _ _ H) as (w1 & s1 & c1 & -> & M1 & H1).
    destruct (IH2 _ _ _ _ _ H1) as (w2 & s2 & c2 & -> & M2 & H2).
    exists (w1 ++ w2), s2, c2. rewrite <- app_assoc.
    eauto using matches_seq.
  - destruct (Re.match_at r1 s cap cont) eqn:E.
    + injection H as ->. destruct (IH1 _ _ _ _ _ E) as (w & s' & c' & -> & M & Hc).
      exists w, s', c'. auto using matches_opt_some.
    + exists [], s, cap. auto using matches_opt_none.
  - destruct (star_greedy_sound _ _ _ _ H) as (w & s' & -> & Hw & Hc).
    exists w, s', cap. auto using matches_star.
  - destruct (star_lazy_sound _ _ _ _ H) as (w & s' & -> & Hw & Hc).
    exists w, s', cap. auto using matches_star_lazy.
  - destruct (IH1 _ _ _ _ _ H) as (w & s' & c' & -> & M & Hc).
    cbv beta in Hc. rewrite take_app_rest in Hc.
    exists w, s', (Some w). eauto using matches_group.
Qed.

(** Where a match exists and the rest is accepted, the matcher finds some
    match. *)
Lemma match_at_complete : forall r w c0 c1,
  matches r w c0 c1 ->
  forall A s' (cont : list N -> option (list N) -> option A),
  is_Some (cont s' c1) ->
  is_Some (Re.match_at r (w ++ s') c0 cont).
Proof.
  induction 1 as [l cap|k c cap Hc|r1 r2 w1 w2 c0 c1 c2 M1 IH1 M2 IH2
                 |r w c0 c1 M IH|r cap|k w cap Hw|k w cap Hw|r w c0 c1 M IH];
    intros A s' cont Hk; simpl.
  - assert (E : strip_prefix l (l ++ s') = Some s').
    { clear. induction l as [|a l IH]; simpl; [reflexivity|].
      rewrite N.eqb_refl. exact IH. }
    rewrite E. exact Hk.
  - rewrite Hc. exact Hk.
  - rewrite <- app_assoc. apply IH1, IH2, Hk.
  - destruct (IH _ s' cont Hk) as [a ->]. eauto.
  - destruct (Re.match_at r s' cap cont); [eauto | exact Hk].
  - apply star_greedy_complete; assumption.
  - apply star_lazy_complete; assumption.
  - apply IH. rewrite take_app_rest. exact Hk.
Qed.

Lemma search_from_eq : forall r pos s,
  Re.search_from r pos s =
  match Re.match_at r s None Re.accept with
  | Some (s', cap) =>
      Some {| Re.start := pos;
              Re.group0 := take (length s - length s') s;
              Re.group1 := cap |}
  | None =>
      match s with
      | [] => None
      | _ :: s' => Re.search_from r (S pos) s'
      end
  end.
Proof. intros r pos [|c s]; reflexivity. Qed.

Lemma accept_sound : forall r s s' cap,
  Re.match_at r s None Re.accept = Some (s', cap) ->
  exists w, s = w ++ s' /\ matches r w None cap /\
    take (length s - length s') s = w.
Proof.
  intros r s s' cap E.
  destruct (match_at_sound _ _ _ _ _ _ E) as (w & s1 & c1 & -> & M & Hc).
  injection Hc as -> ->. exists w. rewrite take_app_rest. auto.
Qed.

(** [search] reports a match of the pattern inside the text. *)
Lemma search_from_sound : forall r s pos m,
  Re.search_from r pos s = Some m ->
  exists pre w post,
    s = pre ++ w ++ post /\ matches r w None (Re.group1 m) /\
    Re.group0 m = w.
Proof.
  induction s as [|c s IH]; intros pos m H; rewrite search_from_eq in H;
    (destruct (Re.match_at r _ None Re.accept) as [[s' cap]|] eqn:E;
     [ injection H as <-; cbn [Re.group0 Re.group1];
       destruct (accept_sound _ _ _ _ E) as (w & Hs & M & Hg);
       exists [], w, s'; auto
     | ]).
  - discriminate.
  - destruct (IH _ _ H) as (pre & w & post & -> & M & Hg).
    exists (c :: pre), w, post. auto.
Qed.

(** * The extraction pipeline *)

Lemma matches_seq_inv : forall r1 r2 w c0 c2,
  matches (Re.RSeq r1 r2) w c0 c2 ->
  exists w1 w2 c1, w = w1 ++ w2 /\ matches r1 w1 c0 c1 /\ matches r2 w2 c1 c2.
Proof. intros r1 r2 w c0 c2 H. inversion H; subst. eauto 7. Qed.

Lemma matches_lit_inv : forall l w c c',
  matches (Re.RLit l) w c c' -> w = l /\ c' = c.
Proof. intros l w c c' H. inversion H; subst. auto. Qed.

Lemma matches_char_inv : forall a w c c',
  matches (Re.ROne (Re.CChar a)) w c c' -> w = [a] /\ c' = c.
Proof.
  intros a w c c' H. inversion H as [|k b cap Hb| | | | | |]; subst.
  simpl in Hb. apply N.eqb_eq in Hb. subst b. auto.
Qed.

Lemma matches_opt_inv : forall r w c c',
  matches (Re.ROpt r) w c c' -> matches r w c c' \/ (w = [] /\ c' = c).
Proof. intros r w c c' H. inversion H; subst; auto. Qed.

Lemma matches_star_inv : forall k w c c',
  matches (Re.RStar k) w c c' ->
  Forall (fun a => Re.cls_matches k a = true) w /\ c' = c.
Proof. intros k w c c' H. inversion H; subst; auto. Qed.

Lemma matches_group_inv : forall r w c c',
  matches (Re.RGroup r) w c c' -> c' = Some w /\ exists c1, matches r w c c1.
Proof. intros r w c c' H. inversion H; subst; eauto. Qed.

(** The shape of a match of the brace pattern, lazy or greedy. *)
Lemma span_inv : forall r w c c',
  matches (Re.RSeq (Re.ROne (Re.CChar LBRACE))
             (Re.RSeq r (Re.ROne (Re.CChar RBRACE)))) w c c' ->
  exists body, w = LBRACE :: body ++ [RBRACE].
Proof.
  intros r w c c' H.
  apply matches_seq_inv in H as (w1 & w2 & c1 & -> & H1 & H2).
  apply matches_seq_inv in H2 as (w3 & w4 & c2 & -> & H3 & H4).
  apply matches_char_inv in H1 as [-> _]. apply matches_char_inv in H4 as [-> _].
  exists w3. reflexivity.
Qed.

(** The shape of a match of the fence pattern. *)
Lemma fence_inv : forall w cap cap',
  matches FENCE_RE w cap cap' ->
  exists tag ws1 body rest,
    w = text "```" ++ tag ++ ws1 ++ (LBRACE :: body ++ [RBRACE]) ++ rest /\
    cap' = Some (LBRACE :: body ++ [RBRACE]) /\
    (tag = [] \/ tag = text "json") /\
    Forall (fun c => Re.is_space c = true) ws1.
Proof.
  intros w cap cap' H. unfold FENCE_RE in H.
  apply matches_seq_inv in H as (w1 & w2 & c1 & -> & H1 & H).
  apply matches_lit_inv in H1 as [-> ->].
  apply matches_seq_inv in H as (tag & w3 & c2 & -> & Htag & H).
  apply matches_seq_inv in H as (ws1 & w4 & c3 & -> & Hws & H).
  apply matches_star_inv in Hws as [Hws ->].
  apply matches_seq_inv in H as (g & w5 & c4 & -> & Hg & H).
  apply matches_group_inv in Hg as [-> [c5 Hg]].
  apply span_inv in Hg as [body ->].
  apply matches_seq_inv in H as (ws2 & w6 & c6 & -> & Hws2 & H).
  apply matches_star_inv in Hws2 as [_ ->].
  apply matches_lit_inv in H as [-> ->].
  exists tag, ws1, body, (ws2 ++ text "```").
  repeat split; [|exact Hws].
  apply matches_opt_inv in Htag as [Htag|[-> _]]; [|auto].
  apply matches_lit_inv in Htag as [-> _]. auto.
Qed.

Lemma braces_inv : forall w cap cap',
  matches BRACES_RE w cap cap' ->
  exists body, w = LBRACE :: body ++ [RBRACE].
Proof. intros w cap cap' H. eapply span_inv, H. Qed.

(** ** What [json.loads] raises *)

(** The interpreter refuses with [RecursionError] or [ValueError]. *)
Lemma refuse_long_refused : forall md s x e,
  Json.refuse_long md s x = Json.Refused e ->
  e = ValueError \/ x = Json.Refused e.
Proof.
  intros md s x e H. unfold Json.refuse_long in H.
  destruct x as [[] ?| | |]; auto.
  destruct (Json.over_cap _ _); [left; congruence | auto].
Qed.

Lemma scan_refused_kind : forall md n,
  (forall room s e, Json.scan_once md n room s = Json.Refused e ->
     e = RecursionError \/ e = ValueError) /\
  (forall room s acc e, Json.object_items md n room s acc = Json.Refused e ->
     e = RecursionError \/ e = ValueError) /\
  (forall room s acc e, Json.array_items md n room s acc = Json.Refused e ->
     e = RecursionError \/ e = ValueError).
Proof.
  intros md. induction n as [|n (IH1 & IH2 & IH3)]; [repeat split; discriminate|].
  repeat split.
  - intros room s e H. destruct s as [|c s1]; [discriminate|].
    cbn [Json.scan_once] in H.
    destruct (c =? QUOTE); [|destruct (c =? LBRACE); [|destruct (c =? LBRACKET)]].
    + destruct (Json.scanstring s1 []) eqn:E; try discriminate.
      exfalso. eapply (scanstring_not_refused (length s1)), E. lia.
    + destruct room as [|room]; [left; congruence|].
      destruct (Json.skip_ws s1) as [|d s2]; [discriminate|].
      destruct (d =? RBRACE); [discriminate|].
      destruct (d =? QUOTE); [|discriminate].
      destruct (Json.object_items md n room s2 []) eqn:E2; try discriminate.
      injection H as <-. eapply IH2, E2.
    + destruct room as [|room]; [left; congruence|].
      destruct (Json.skip_ws s1) as [|d s2]; [discriminate|].
      destruct (d =? RBRACKET); [discriminate|].
      destruct (Json.array_items md n room (d :: s2) []) eqn:E2; try discriminate.
      injection H as <-. eapply IH3, E2.
    + apply refuse_long_refused in H as [->|H]; [auto|].
      exfalso. eapply scan_atom_not_refused, H.
  - intros room s acc e H. cbn [Json.object_items] in H.
    destruct (Json.scanstring s []) as [key r0| | |] eqn:E; try discriminate.
    2:{ exfalso. eapply (scanstring_not_refused (length s)), E. lia. }
    destruct (Json.skip_ws r0) as [|c r1]; [discriminate|].
    destruct (c =? COLON); [|discriminate].
    destruct (Json.scan_once md n room (Json.skip_ws r1)) as [v r2| |e0|] eqn:E2;
      try discriminate.
    2:{ injection H as <-. eapply IH1, E2. }
    destruct (Json.skip_ws r2) as [|d r3]; [discriminate|].
    destruct (d =? RBRACE); [discriminate|].
    destruct (d =? COMMA); [|discriminate].
    destruct (Json.skip_ws r3) as [|q r4]; [discriminate|].
    destruct (q =? QUOTE); [|discriminate].
    eapply IH2, H.
  - intros room s acc e H. cbn [Json.array_items] in H.
    destruct (Json.scan_once md n room s) as [v r0| |e0|] eqn:E; try discriminate.
    2:{ injection H as <-. eapply IH1, E. }
    destruct (Json.skip_ws r0) as [|d r1]; [discriminate|].
    destruct (d =? RBRACKET); [discriminate|].
    destruct (d =? COMMA); [|discriminate].
    eapply IH3, H.
Qed.

(** [json.loads] by the answer of the scanner: the test for a byte-order
    mark refuses nothing the scanner would accept. *)
Lemma loads_eq : forall L s,
  Json.loads L s =
  match Json.raw_decode L s with
  | Json.Scanned v r =>
      match Json.skip_ws r with
      | [] => Ret v
      | _ :: _ => Raise JSONDecodeError
      end
  | Json.Refused e => Raise e
  | Json.Malformed | Json.Exhausted => Raise JSONDecodeError
  end.
Proof.
  intros L s. unfold Json.loads.
  destruct s as [|c s]; [reflexivity|].
  destruct c as [|p]; [reflexivity|].
  do 16 (destruct p as [p|p|]; try reflexivity).
Qed.

(** [json.loads] raises a decode error, or what the interpreter refused
    while the document was scanned. *)
Lemma loads_raises : forall L s e,
  Json.loads L s = Raise e ->
  e = JSONDecodeError \/ Json.raw_decode L s = Json.Refused e.
Proof.
  intros L s e H. unfold Json.loads in H.
  destruct (Json.raw_decode L s) as [v r| |e0|] eqn:E;
    repeat match type of H with
    | context [match ?x with _ => _ end] => destruct x
    end; try (left; congruence).
  all: right; congruence.
Qed.

Lemma loads_raises_only : forall L s e,
  Json.loads L s = Raise e ->
  e = JSONDecodeError \/ e = RecursionError \/ e = ValueError.
Proof.
  intros L s e H. apply loads_raises in H as [->|H]; [auto|].
  right. unfold Json.raw_decode in H.
  eapply (proj1 (scan_refused_kind _ _)), H.
Qed.

Lemma try_loads_ret : forall L s v,
  Json.loads L s = Ret v -> try_loads L s = Some (Ret v).
Proof. intros L s v H. unfold try_loads. rewrite H. reflexivity. Qed.

Lemma try_loads_raise : forall L s,
  Json.loads L s = Raise JSONDecodeError -> try_loads L s = None.
Proof. intros L s H. unfold try_loads. rewrite H. reflexivity. Qed.

Lemma is_JSONDecodeError_eq : forall e,
  is_JSONDecodeError e = true -> e = JSONDecodeError.
Proof. intros e H. destruct e; try discriminate. reflexivity. Qed.

(** An attempt goes on to the next one exactly on a decode error. *)
Lemma try_loads_none : forall L s,
  try_loads L s = None -> Json.loads L s = Raise JSONDecodeError.
Proof.
  intros L s H. unfold try_loads in H.
  destruct (Json.loads L s) as [v|e]; [discriminate|].
  destruct (is_JSONDecodeError e) eqn:E; [|discriminate].
  apply is_JSONDecodeError_eq in E. congruence.
Qed.

(** An attempt that ends the function returns what [json.loads] returned,
    or lets pass what it raised. *)
Lemma try_loads_some : forall L s r,
  try_loads L s = Some r ->
  Json.loads L s = r /\
  ((exists v, r = Ret v) \/ r = Raise RecursionError \/ r = Raise ValueError).
Proof.
  intros L s r H. unfold try_loads in H.
  destruct (Json.loads L s) as [v|e] eqn:E.
  - injection H as <-. eauto.
  - destruct (is_JSONDecodeError e) eqn:Ee; [discriminate|].
    injection H as <-. split; [reflexivity|]. right.
    apply loads_raises_only in E as [->|[->| ->]]; [discriminate Ee | auto | auto].
Qed.

(** The decoder of the model always answers: the budget is enough. *)
Lemma raw_decode_not_exhausted : forall L s, Json.raw_decode L s <> Json.Exhausted.
Proof.
  intros L s. unfold Json.raw_decode.
  apply (proj1 (scan_fuel _ _)). pose proof (skip_ws_length s). lia.
Qed.

(** A document that opens with a brace: what [loads] computes. *)
Lemma loads_braced : forall L s v,
  Json.loads L (LBRACE :: s) = Ret v ->
  exists r,
    Json.scan_once (int_max_str_digits L) (S (2 * length (LBRACE :: s)))
      (recursion_room L) (LBRACE :: s) = Json.Scanned v r /\
    Json.skip_ws r = [].
Proof.
  intros L s v H. rewrite loads_eq in H.
  unfold Json.raw_decode in H.
  change (Json.skip_ws (LBRACE :: s)) with (LBRACE :: s) in H.
  destruct (Json.scan_once _ _ _ _) as [v' r| | |] eqn:E; try discriminate.
  destruct (Json.skip_ws r) eqn:Er; [|discriminate].
  injection H as ->. eauto.
Qed.

Lemma skip_ws_app_nil : forall a b,
  Json.skip_ws (a ++ b) = [] -> Json.skip_ws b = [].
Proof.
  induction a as [|c a IH]; intros b H; simpl in H; [exact H|].
  destruct (Json.is_ws c); [auto | discriminate].
Qed.

(** No proper prefix of an object document is a document, unless only
    blanks follow it. *)
Lemma loads_prefix : forall L g q v v',
  Json.loads L (LBRACE :: g) = Ret v' ->
  Json.loads L (LBRACE :: g ++ q) = Ret v ->
  Json.skip_ws q = [].
Proof.
  intros L g q v v' Hg Hj.
  destruct (loads_braced L g v' Hg) as (r' & Eg & Hr').
  destruct (loads_braced L (g ++ q) v Hj) as (r & Ej & Hr).
  apply (proj1 (scan_app _ _)) with (q := q) in Eg; [|right; reflexivity].
  apply (proj1 (scan_mono _ _) (S (2 * length (LBRACE :: g ++ q)))) in Eg.
  - change ((LBRACE :: g) ++ q) with (LBRACE :: g ++ q) in Eg.
    rewrite Eg in Ej. injection Ej as _ <-.
    eapply skip_ws_app_nil, Hr.
  - cbn [length]. rewrite length_app. lia.
  - discriminate.
Qed.

(** A prefix of an object document that ends with a closing brace is
    refused by nothing but the grammar: what the interpreter would refuse in
    the prefix, it would refuse in the document. *)
Lemma loads_closed_prefix : forall L g q v e,
  Json.loads L (LBRACE :: g ++ q) = Ret v ->
  ends_closed (LBRACE :: g) ->
  Json.loads L (LBRACE :: g) = Raise e ->
  e = JSONDecodeError.
Proof.
  intros L g q v e Hj Hc Hg.
  apply loads_raises in Hg as [->|Hg]; [reflexivity|]. exfalso.
  unfold Json.raw_decode in Hg.
  change (Json.skip_ws (LBRACE :: g)) with (LBRACE :: g) in Hg.
  apply (proj1 (scan_refused_app _ _)) with (q := q) in Hg; [|exact Hc].
  apply (proj1 (scan_mono _ _) (S (2 * length (LBRACE :: g ++ q)))) in Hg.
  - rewrite loads_eq in Hj.
    unfold Json.raw_decode in Hj.
    change (Json.skip_ws (LBRACE :: g ++ q)) with ((LBRACE :: g) ++ q) in Hj.
    rewrite Hg in Hj. discriminate Hj.
  - cbn [length]. rewrite length_app. lia.
  - discriminate.
Qed.

(** A text that does not start like a JSON value is not a document. *)
Lemma loads_backtick : forall L rest,
  Json.loads L (BACKTICK :: rest) = Raise JSONDecodeError.
Proof. intros L rest. reflexivity. Qed.

(** The greedy span: with no closing brace after it, the last closing brace
    ends the match. *)
Lemma star_greedy_no_close : forall cont t,
  closes cont -> ~ In RBRACE t -> Re.star_greedy Re.CAny t cont = None.
Proof.
  intros cont t Hc. induction t as [|c t IH]; intros Hn;
    cbn [Re.star_greedy Re.cls_matches]; [rewrite Hc; reflexivity|].
  rewrite IH by (intros Hin; apply Hn; right; exact Hin).
  rewrite Hc. destruct (RBRACE =? c) eqn:E; [|reflexivity].
  apply N.eqb_eq in E. exfalso. apply Hn. left. symmetry. exact E.
Qed.

Lemma star_greedy_last_close : forall cont body t,
  closes cont -> ~ In RBRACE t ->
  Re.star_greedy Re.CAny (body ++ RBRACE :: t) cont = Some (t, None).
Proof.
  intros cont body t Hc Hn. induction body as [|c body IH];
    cbn [Datatypes.app Re.star_greedy Re.cls_matches].
  - rewrite (star_greedy_no_close cont t Hc Hn), Hc, N.eqb_refl. reflexivity.
  - rewrite IH. reflexivity.
Qed.

(** Where the brace pattern matches: from the first opening brace to the
    last closing brace. *)
Lemma search_braces : forall pre body t pos,
  ~ In LBRACE pre -> ~ In RBRACE t ->
  Re.search_from BRACES_RE pos (pre ++ LBRACE :: body ++ RBRACE :: t) =
  Some {| Re.start := (pos + length pre)%nat;
          Re.group0 := LBRACE :: body ++ [RBRACE];
          Re.group1 := None |}.
Proof.
  induction pre as [|c pre IH]; intros body t pos Hpre Ht;
    rewrite search_from_eq.
  - cbn [Datatypes.app]. unfold BRACES_RE.
    cbn [Re.match_at Re.cls_matches]. rewrite N.eqb_refl.
    rewrite (star_greedy_last_close _ body t); [|intros [|a s']; reflexivity|exact Ht].
    f_equal. f_equal; [simpl; lia|].
    replace (LBRACE :: body ++ RBRACE :: t)
      with ((LBRACE :: body ++ [RBRACE]) ++ t)
      by (simpl; rewrite <- app_assoc; reflexivity).
    apply take_app_rest.
  - cbn [Datatypes.app]. unfold BRACES_RE at 1.
    cbn [Re.match_at Re.cls_matches].
    destruct (LBRACE =? c) eqn:E.
    { apply N.eqb_eq in E. exfalso. apply Hpre. left. symmetry. exact E. }
    rewrite IH; [|intros Hin; apply Hpre; right; exact Hin | exact Ht].
    f_equal. f_equal. simpl. lia.
Qed.

(** Two ways to cut a text at the same character, the second followed by
    no further occurrence of it: the first cut comes first. *)
Lemma cut_before_last : forall (x : N) a b X Y,
  a ++ x :: X = b ++ x :: Y -> ~ In x Y ->
  exists q, b ++ [x] = (a ++ [x]) ++ q.
Proof.
  induction a as [|c a IH]; intros b X Y H Hn.
  - destruct b as [|d b].
    + exists []. reflexivity.
    + simpl in H. injection H as <- HX. exists (b ++ [x]). reflexivity.
  - destruct b as [|d b].
    + simpl in H. injection H as <- HY. exfalso. apply Hn.
      rewrite <- HY. apply in_or_app. right. left. reflexivity.
    + simpl in H. injection H as <- H.
      destruct (IH _ _ _ H Hn) as [q Hq]. exists q. simpl. f_equal. exact Hq.
Qed.

Lemma skip_ws_nil_last : forall q c, Json.skip_ws (q ++ [c]) = [] -> Json.is_ws c = true.
Proof.
  induction q as [|a q IH]; intros c H; simpl in H.
  - destruct (Json.is_ws c); [reflexivity | discriminate].
  - destruct (Json.is_ws a); [auto | discriminate].
Qed.

Lemma text_fence : text "```" = [96; 96; 96].
Proof. reflexivity. Qed.

Lemma text_json : text "json" = [106; 115; 111; 110].
Proof. reflexivity. Qed.

Lemma text_fence_json : text "```json" = [96; 96; 96; 106; 115; 111; 110].
Proof. reflexivity. Qed.

(** The fence pattern on a fenced object: the group starts where the
    object starts and ends inside it. *)
Lemma search_fence : forall body,
  exists m q,
    Re.search FENCE_RE (fenced (LBRACE :: body ++ [RBRACE])) = Some m /\
    LBRACE :: body ++ [RBRACE] = group1_text m ++ q /\
    exists g, group1_text m = LBRACE :: g ++ [RBRACE].
Proof.
  intros body. unfold fenced.
  set (j := LBRACE :: body ++ [RBRACE]).
  set (s := text "```json" ++ NEWLINE :: j ++ NEWLINE :: text "```").
  assert (Hfound : is_Some (Re.match_at FENCE_RE s None Re.accept)).
  { replace s with ((text "```" ++ text "json" ++ [NEWLINE] ++ j
                       ++ [NEWLINE] ++ text "```") ++ [])
      by (rewrite app_nil_r; reflexivity).
    eapply match_at_complete; [|eexists; reflexivity].
    unfold FENCE_RE.
    eapply matches_seq; [apply matches_lit|].
    eapply matches_seq; [apply matches_opt_some, matches_lit|].
    eapply matches_seq; [apply matches_star; repeat constructor|].
    eapply matches_seq.
    - eapply matches_group. unfold j.
      change (LBRACE :: body ++ [RBRACE]) with ([LBRACE] ++ body ++ [RBRACE]).
      eapply matches_seq; [apply matches_one; reflexivity|].
      eapply matches_seq; [|apply matches_one; reflexivity].
      apply matches_star_lazy, Forall_forall. reflexivity.
    - eapply matches_seq; [apply matches_star; repeat constructor|].
      apply matches_lit. }
  destruct Hfound as [[s' cap] Hm].
  unfold Re.search. rewrite search_from_eq, Hm.
  destruct (accept_sound _ _ _ _ Hm) as (w & Hs & M & _).
  destruct (fence_inv _ _ _ M) as (tag & ws1 & b & rest & -> & -> & Htag & Hws).
  eexists. 
  assert (Hcut : b ++ RBRACE :: rest ++ s' = body ++ RBRACE :: NEWLINE :: text "```").
  { unfold s, j in Hs. rewrite text_fence_json in Hs.
    rewrite text_fence in *. unfold NEWLINE, LBRACE, RBRACE in *.
    destruct Htag as [-> | ->]; [|rewrite text_json in Hs];
      cbn [Datatypes.app] in Hs.
    - exfalso. destruct Hws as [|c ws1 Hc Hws]; cbn [Datatypes.app] in Hs;
        [discriminate Hs|].
      injection Hs as <- _. discriminate Hc.
    - destruct Hws as [|c ws1 Hc Hws]; cbn [Datatypes.app] in Hs;
        [discriminate Hs|].
      destruct Hws as [|c' ws1 Hc' Hws]; cbn [Datatypes.app] in Hs.
      + injection Hs as _ Hs. rewrite <- !app_assoc in Hs.
        cbn [Datatypes.app] in Hs. symmetry. exact Hs.
      + exfalso. injection Hs as _ <- _. discriminate Hc'. }
  destruct (cut_before_last RBRACE b body _ _ Hcut) as [q Hq].
  { intros Hin. simpl in Hin. repeat destruct Hin as [Hin|Hin]; discriminate || auto. }
  exists q. split; [reflexivity|]. cbn [group1_text Re.group1]. split.
  - unfold j. cbn [Datatypes.app]. f_equal. exact Hq.
  - eexists. reflexivity.
Qed.

(** * Statements about the extraction *)

(** When the whole reply is a document, the first attempt returns it. *)
Lemma parse_response_loads : forall raw v w,
  Json.loads (interp w) raw = Ret v -> _parse_response raw w = (Ret v, w).
Proof.
  intros raw v w H. apply try_loads_ret in H.
  unfold _parse_response. cbv zeta. rewrite H. reflexivity.
Qed.

(** C1. For every well-formed JSON string, [_parse_response] returns the
    result of parsing the whole string: the first attempt returns, and the
    fenced-block and brace-span attempts are not reached (nothing is
    logged). *)
Theorem parse_response_whole_document : forall raw v w,
  Json.loads (interp w) raw = Ret v ->
  try_loads (interp w) raw = Some (Ret v) /\
  _parse_response raw w = (Ret v, w).
Proof.
  intros raw v w H. split.
  - now apply try_loads_ret.
  - now apply parse_response_loads.
Qed.

Lemma parse_response_whole_document_witness :
  Json.loads (interp world0) doc_point = Ret val_point /\
  (try_loads (interp world0) doc_point = Some (Ret val_point) /\
   _parse_response doc_point world0 = (Ret val_point, world0)).
Proof.
  split; [reflexivity|].
  apply (parse_response_whole_document doc_point val_point world0).
  reflexivity.
Defined.

(** C3. A valid JSON object wrapped in a json fence is extracted to the
    same result as the bare object. *)
Theorem parse_response_fenced : forall body v w,
  Json.loads (interp w) (LBRACE :: body ++ [RBRACE]) = Ret v ->
  _parse_response (fenced (LBRACE :: body ++ [RBRACE])) w =
  _parse_response (LBRACE :: body ++ [RBRACE]) w /\
  _parse_response (fenced (LBRACE :: body ++ [RBRACE])) w = (Ret v, w).
Proof.
  intros body v w Hj.
  rewrite (parse_response_loads _ _ w Hj).
  enough (_parse_response (fenced (LBRACE :: body ++ [RBRACE])) w = (Ret v, w))
    by auto.
  unfold _parse_response. cbv zeta.
  replace (try_loads (interp w) (fenced (LBRACE :: body ++ [RBRACE])))
    with (@None (py pyval))
    by (symmetry; apply try_loads_raise, loads_backtick).
  destruct (search_fence body) as (m & q & Hm & Hq & g & Hg).
  unfold try_fenced. rewrite Hm.
  destruct (Json.loads (interp w) (group1_text m)) as [v'|e] eqn:El.
  - (* the group is a document: it is the whole object *)
    rewrite (try_loads_ret _ _ _ El).
    assert (Hnil : Json.skip_ws q = []).
    { rewrite Hg in El, Hq. rewrite Hq in Hj.
      eapply loads_prefix; [exact El | exact Hj]. }
    assert (q = []) as ->.
    { destruct q as [|c q' _] using rev_ind; [reflexivity|].
      exfalso.
      assert (c = RBRACE) as ->.
      { rewrite app_assoc in Hq.
        change (LBRACE :: body ++ [RBRACE])
          with ((LBRACE :: body) ++ [RBRACE]) in Hq.
        apply app_inj_tail in Hq. symmetry. tauto. }
      apply skip_ws_nil_last in Hnil. discriminate Hnil. }
    rewrite Hg in El. rewrite Hq, Hg, app_nil_r in Hj.
    unfold lift. congruence.
  - (* the group is not a document: the interpreter refuses nothing in it
       that it accepted in the object, so the error is a decode error and
       the brace span is the whole object *)
    assert (e = JSONDecodeError) as ->.
    { rewrite Hg in El, Hq. rewrite Hq in Hj.
      change ((LBRACE :: g ++ [RBRACE]) ++ q)
        with (LBRACE :: (g ++ [RBRACE]) ++ q) in Hj.
      eapply loads_closed_prefix; [exact Hj | | exact El].
      intros p c Hp.
      change (LBRACE :: g ++ [RBRACE]) with ((LBRACE :: g) ++ [RBRACE]) in Hp.
      apply app_inj_tail in Hp. symmetry. tauto. }
    rewrite (try_loads_raise _ _ El).
    unfold try_braces, Re.search, fenced.
    rewrite text_fence_json, text_fence.
    change ([96; 96; 96; 106; 115; 111; 110] ++
            NEWLINE :: (LBRACE :: body ++ [RBRACE]) ++ NEWLINE :: [96; 96; 96])
      with ([96; 96; 96; 106; 115; 111; 110; NEWLINE] ++
            LBRACE :: (body ++ [RBRACE]) ++ NEWLINE :: [96; 96; 96]).
    rewrite <- app_assoc.
    change ([RBRACE] ++ NEWLINE :: [96; 96; 96])
      with (RBRACE :: NEWLINE :: [96; 96; 96]).
    rewrite (search_braces [96; 96; 96; 106; 115; 111; 110; NEWLINE] body
               (NEWLINE :: [96; 96; 96]) 0).
    + cbn [Re.group0]. rewrite (try_loads_ret _ _ _ Hj). reflexivity.
    + unfold NEWLINE, LBRACE. simpl.
      intros H. repeat destruct H as [H|H]; discriminate || auto.
    + unfold NEWLINE, RBRACE. simpl.
      intros H. repeat destruct H as [H|H]; discriminate || auto.
Qed.

Lemma parse_response_fenced_witness :
  Json.loads (interp world0) (LBRACE :: body_point ++ [RBRACE]) = Ret val_point /\
  (_parse_response (fenced (LBRACE :: body_point ++ [RBRACE])) world0 =
   _parse_response (LBRACE :: body_point ++ [RBRACE]) world0 /\
   _parse_response (fenced (LBRACE :: body_point ++ [RBRACE])) world0 =
   (Ret val_point, world0)).
Proof.
  split; [reflexivity|].
  apply (parse_response_fenced body_point val_point world0). reflexivity.
Defined.

(** The three attempts, case by case: the first attempt that does not end
    in a decode error decides the result, and the warning is logged exactly
    when all of them do. *)
Lemma parse_response_cases : forall raw w,
  (exists r, try_loads (interp w) raw = Some r /\
     Json.loads (interp w) raw = r /\ _parse_response raw w = (r, w)) \/
  (try_loads (interp w) raw = None /\
   exists m r, Re.search FENCE_RE raw = Some m /\
     try_loads (interp w) (group1_text m) = Some r /\
     Json.loads (interp w) (group1_text m) = r /\
     _parse_response raw w = (r, w)) \/
  (try_loads (interp w) raw = None /\ try_fenced (interp w) raw = None /\
   exists m r, Re.search BRACES_RE raw = Some m /\
     try_loads (interp w) (Re.group0 m) = Some r /\
     Json.loads (interp w) (Re.group0 m) = r /\
     _parse_response raw w = (r, w)) \/
  (try_loads (interp w) raw = None /\ try_fenced (interp w) raw = None /\
   try_braces (interp w) raw = None /\
   _parse_response raw w = (Ret PyNone, warned w)).
Proof.
  intros raw w. unfold _parse_response. cbv zeta.
  destruct (try_loads (interp w) raw) as [r|] eqn:E1.
  { left. exists r. split; [reflexivity|].
    apply try_loads_some in E1 as [H _]. auto. }
  right. destruct (try_fenced (interp w) raw) as [r|] eqn:E2.
  { left. split; [reflexivity|]. unfold try_fenced in E2.
    destruct (Re.search FENCE_RE raw) as [m|]; [|discriminate].
    exists m, r. split; [reflexivity|]. split; [exact E2|].
    apply try_loads_some in E2 as [H _]. auto. }
  right. destruct (try_braces (interp w) raw) as [r|] eqn:E3.
  { left. do 2 (split; [reflexivity|]). unfold try_braces in E3.
    destruct (Re.search BRACES_RE raw) as [m|]; [|discriminate].
    exists m, r. split; [reflexivity|]. split; [exact E3|].
    apply try_loads_some in E3 as [H _]. auto. }
  right. auto.
Qed.

(** [_parse_response] answers on every string: it returns a decoded
    document or [None], or lets pass the [RecursionError] or the
    [ValueError] of one of its attempts; the decode errors of the three
    attempts are all caught. *)
Lemma parse_response_outcomes : forall raw w,
  exists r w', _parse_response raw w = (r, w') /\
    (r = Ret PyNone \/
     (exists s v, Json.loads (interp w) s = Ret v /\ r = Ret v) \/
     (exists s e, Json.loads (interp w) s = Raise e /\ r = Raise e /\
        (e = RecursionError \/ e = ValueError))).
Proof.
  intros raw w.
  assert (Hk : forall s r, try_loads (interp w) s = Some r ->
            (exists s v, Json.loads (interp w) s = Ret v /\ r = Ret v) \/
            (exists s e, Json.loads (interp w) s = Raise e /\ r = Raise e /\
               (e = RecursionError \/ e = ValueError))).
  { intros s r H. apply try_loads_some in H as [H [[v ->]|[->| ->]]]; eauto 8. }
  destruct (parse_response_cases raw w)
    as [(r & H & _ & E) | [(_ & m & r & _ & H & _ & E)
        | [(_ & _ & m & r & _ & H & _ & E) | (_ & _ & _ & E)]]];
    eauto 8.
Qed.

(** What the interpreter refuses in the first attempt leaves the
    function. *)
Lemma parse_response_refused_loads : forall raw e w,
  Json.loads (interp w) raw = Raise e -> e <> JSONDecodeError ->
  _parse_response raw w = (Raise e, w).
Proof.
  intros raw e w H He. unfold _parse_response, try_loads. cbv zeta.
  rewrite H. destruct e; try reflexivity. contradiction.
Qed.

Lemma loads_long_integer :
  Json.loads default_limits long_integer = Raise ValueError.
Proof. vm_compute. reflexivity. Qed.

Lemma loads_deep_list :
  Json.loads default_limits deep_list = Raise RecursionError.
Proof. vm_compute. reflexivity. Qed.

(** C10, at an integer of 4400 digits and at 2000 opening brackets.  Under
    the settings of an interpreter as it starts, [json.loads] refuses the
    first with [ValueError] and the second with [RecursionError]; the
    [except json.JSONDecodeError] clause of the first attempt catches
    neither, and the exception leaves [_parse_response], with no further
    attempt and no warning. *)
Theorem parse_response_raises : forall w,
  interp w = default_limits ->
  _parse_response long_integer w = (Raise ValueError, w) /\
  _parse_response deep_list w = (Raise RecursionError, w).
Proof.
  intros w Hw. split; apply parse_response_refused_loads;
    try discriminate; rewrite Hw.
  - exact loads_long_integer.
  - exact loads_deep_list.
Qed.

Lemma parse_response_raises_witness :
  _parse_response long_integer world0 = (Raise ValueError, world0) /\
  _parse_response deep_list world0 = (Raise RecursionError, world0).
Proof. apply (parse_response_raises world0). reflexivity. Defined.

(** A reply without a brace span is matched by neither pattern. *)
Lemma no_span_fenced : forall L s, no_brace_span s -> try_fenced L s = None.
Proof.
  intros L s Hs. unfold try_fenced, Re.search.
  destruct (Re.search_from FENCE_RE 0 s) as [m|] eqn:E; [|reflexivity].
  exfalso. apply search_from_sound in E as (pre & w & post & -> & Hm & _).
  apply fence_inv in Hm as (tag & ws1 & body & rest & -> & _).
  apply (Hs (pre ++ text "```" ++ tag ++ ws1) body (rest ++ post)).
  repeat rewrite <- app_assoc. do 4 f_equal.
  cbn [Datatypes.app]. rewrite <- app_assoc. reflexivity.
Qed.

Lemma no_span_braces : forall L s, no_brace_span s -> try_braces L s = None.
Proof.
  intros L s Hs. unfold try_braces, Re.search.
  destruct (Re.search_from BRACES_RE 0 s) as [m|] eqn:E; [|reflexivity].
  exfalso. apply search_from_sound in E as (pre & w & post & -> & Hm & _).
  apply braces_inv in Hm as (body & ->).
  apply (Hs pre body post). f_equal.
  cbn [Datatypes.app]. rewrite <- app_assoc. reflexivity.
Qed.

(** Without a brace span the first attempt alone decides: a reply that is a
    document is returned as decoded, a decode error gives [None] with the
    warning, and anything else that [json.loads] raises leaves the
    function. *)
Lemma parse_response_no_span : forall s w,
  no_brace_span s ->
  _parse_response s w =
  match Json.loads (interp w) s with
  | Ret v => (Ret v, w)
  | Raise e =>
      if is_JSONDecodeError e then (Ret PyNone, warned w) else (Raise e, w)
  end.
Proof.
  intros s w Hs. destruct (Json.loads (interp w) s) as [v|e] eqn:E.
  - now apply parse_response_loads.
  - unfold _parse_response, try_loads. cbv zeta. rewrite E.
    destruct (is_JSONDecodeError e); [|reflexivity].
    rewrite (no_span_fenced _ _ Hs), (no_span_braces _ _ Hs).
    reflexivity.
Qed.

Lemma no_brace_no_span : forall s, ~ In LBRACE s -> no_brace_span s.
Proof.
  intros s Hs a b c ->. apply Hs. apply in_or_app. right. left. reflexivity.
Qed.

(** The document [[1]] decodes to a list wherever the scanner can enter one
    array; its one digit is under every cap. *)
Lemma loads_doc_list : forall L,
  (0 < recursion_room L)%nat ->
  Json.loads L doc_list = Ret (PyList [PyInt 1]).
Proof.
  intros [[|room] md] H; [simpl in H; lia|].
  unfold Json.loads, Json.raw_decode, doc_list.
  cbn [text Json.skip_ws Json.is_ws chr recursion_room int_max_str_digits].
  destruct md as [|[|md]]; reflexivity.
Qed.

(** C4, at the reply [[1]]. The reply holds no brace span, and the first
    attempt returns the decoded list instead of [None]: the direct attempt
    accepts any document, where the two patterns accept objects only.  The
    interpreter has room for one array. *)
Theorem parse_response_list_reply :
  no_brace_span doc_list /\
  forall w, (0 < recursion_room (interp w))%nat ->
    _parse_response doc_list w = (Ret (PyList [PyInt 1]), w).
Proof.
  split.
  - apply no_brace_no_span. unfold doc_list, LBRACE. simpl.
    intros H. repeat destruct H as [H|H]; discriminate || auto.
  - intros w Hw. apply parse_response_loads, loads_doc_list, Hw.
Qed.

Lemma parse_response_list_reply_witness :
  no_brace_span doc_list /\
  _parse_response doc_list world0 = (Ret (PyList [PyInt 1]), world0).
Proof.
  split.
  - exact (proj1 parse_response_list_reply).
  - apply (proj2 parse_response_list_reply world0). simpl. lia.
Defined.
(** * Statements about the controller *)

(** C2. [move_and_click] moves the pointer to the target clamped into the
    screen, max(0, min(x, w-1)) and max(0, min(y, h-1)), then clicks, and
    returns normally whatever the coordinates are; on a screen of positive
    size the target lies in [0, w-1] x [0, h-1].  On a 1920 x 1080 screen
    the recommendation (5000, -50) is moved to (1919, 0). *)
Theorem move_and_click_clamped : forall x y action w,
  let tx := Z.max 0 (Z.min x (fst (screen w) - 1)) in
  let ty := Z.max 0 (Z.min y (snd (screen w) - 1)) in
  exists c w',
    move_and_click x y action w = (Ret tt, w') /\
    pointer w' = pointer w ++ [MoveTo tx ty CURSOR_MOVE_DURATION; c] /\
    (c = Click \/ c = DoubleClick \/ c = RightClick) /\
    ((0 < fst (screen w))%Z -> (0 <= tx <= fst (screen w) - 1)%Z) /\
    ((0 < snd (screen w))%Z -> (0 <= ty <= snd (screen w) - 1)%Z).
Proof.
  intros x y action w tx ty.
  assert (Hc : forall c,
    exists w', (do logger INFO "Moving cursor to (%d, %d) - action: %s";
                do pyautogui (MoveTo tx ty CURSOR_MOVE_DURATION);
                pyautogui c) w = (Ret tt, w') /\
               pointer w' = pointer w ++ [MoveTo tx ty CURSOR_MOVE_DURATION; c]).
  { intros c. eexists. split; [reflexivity|].
    cbn. rewrite <- app_assoc. reflexivity. }
  assert (Hr : ((0 < fst (screen w))%Z -> (0 <= tx <= fst (screen w) - 1)%Z) /\
               ((0 < snd (screen w))%Z -> (0 <= ty <= snd (screen w) - 1)%Z))
    by (subst tx ty; lia).
  unfold move_and_click, bind at 1, pyautogui_size. fold tx ty.
  cbv beta iota zeta. cbn [fst snd]. fold tx ty.
  destruct (eq_str action "click");
    [|destruct (eq_str action "double_click");
      [|destruct (eq_str action "right_click")]].
  - destruct (Hc Click) as (w' & H1 & H2). exists Click, w'. auto 6.
  - destruct (Hc DoubleClick) as (w' & H1 & H2). exists DoubleClick, w'. auto 6.
  - destruct (Hc RightClick) as (w' & H1 & H2). exists RightClick, w'. auto 6.
  - destruct (Hc Click) as (w' & H1 & H2). exists Click, w'. auto 6.
Qed.

Lemma move_and_click_clamped_witness :
  exists c w',
    move_and_click 5000 (-50) (PyStr (text "click")) world0 = (Ret tt, w') /\
    pointer w' = [MoveTo 1919 0 CURSOR_MOVE_DURATION; c] /\
    (0 <= 1919 <= 1919)%Z /\ (0 <= 0 <= 1079)%Z.
Proof.
  destruct (move_and_click_clamped 5000 (-50) (PyStr (text "click")) world0)
    as (c & w' & H1 & H2 & _ & H4 & H5).
  exists c, w'. split; [exact H1|]. split; [exact H2|].
  split; [apply H4; simpl; lia | apply H5; simpl; lia].
Defined.

(** When the analysis has no [recommended] entry, or the entry is an
    object without [x] or without [y], [execute] returns normally and sends
    nothing to the pointer. *)
Lemma execute_without_target : forall B d w,
  dict_get d (text "recommended") = None \/
  (exists r, dict_get d (text "recommended") = Some (PyDict r) /\
     (dict_get r (text "x") = None \/ dict_get r (text "y") = None)) ->
  exists w', execute B (PyDict d) w = (Ret tt, w') /\ pointer w' = pointer w.
Proof.
  intros B d w [H | (r & H & Hxy)]; unfold execute, bind at 1, lift, py_get;
    rewrite H.
  - eexists. split; reflexivity.
  - destruct r as [|kv r'].
    + eexists. split; reflexivity.
    + cbn [truthy negb]. cbv iota.
      unfold bind, lift, py_get.
      destruct Hxy as [Hx | Hy].
      * rewrite Hx. cbn [is_None orb]. eexists. split; reflexivity.
      * rewrite Hy. cbn [is_None]. rewrite orb_true_r.
        eexists. split; reflexivity.
Qed.

Lemma execute_without_target_witness :
  exists w',
    execute sample_builtins
      (PyDict [(text "recommended", PyDict [(text "x", PyInt 5)])]) world0
    = (Ret tt, w') /\ pointer w' = pointer world0.
Proof.
  apply (execute_without_target sample_builtins
           [(text "recommended", PyDict [(text "x", PyInt 5)])] world0).
  right. exists [(text "x", PyInt 5)]. split; [reflexivity|].
  right. reflexivity.
Defined.

(** C5, at the analysis whose [recommended] entry is the string
    ["Login"]: an entry that is present and has neither [x] nor [y].  The
    entry is true, so the first check lets it through, and [rec.get] raises
    [AttributeError]: [execute] does not return normally.  In the loop, the
    reply that holds this analysis ends the [try] suite of its cycle in the
    handler, which logs the error; nothing is sent to the pointer. *)
Theorem execute_recommended_label :
  (forall B w, execute B val_login w = (Raise AttributeError, w)) /\
  Json.loads default_limits doc_login = Ret val_login /\
  exists w1,
    cycle sample_builtins login_tick world0 = (Ret tt, w1) /\
    last (logged w1) = Some (ERROR, "Automation cycle error: %s"%string) /\
    pointer w1 = [].
Proof.
  split; [intros B w; reflexivity|].
  split; [vm_compute; reflexivity|].
  eexists. split; [vm_compute; reflexivity|].
  split; reflexivity.
Qed.

(** * Statements about the engine *)



(** While the flag stays set, the wait takes all its naps and the loop goes
    on. *)
Lemma wait_running : forall k flag i w,
  (forall j, flag j = true) ->
  wait k flag i w = (true, asleep k w).
Proof.
  induction k as [|k IH]; intros flag i w Hf.
  - destruct w. reflexivity.
  - cbn [wait]. rewrite Hf, IH by exact Hf.
    unfold asleep, time_sleep_tenth. cbn. do 2 f_equal. lia.
Qed.

(** Whatever the cycle raises is outside the class [Exception]. *)
Lemma cycle_raises_only_base : forall B tk w e w',
  cycle B tk w = (Raise e, w') -> is_Exception e = false.
Proof.
  intros B tk w e w'. unfold cycle, try_except.
  match goal with |- context [match ?b w with _ => _ end] =>
    destruct (b w) as [[a|e0] w0] end.
  - discriminate.
  - destruct (is_Exception e0) eqn:E.
    + discriminate.
    + intros H. injection H as <- <-. exact E.
Qed.

Lemma parse_response_unparseable : forall L raw w,
  unparseable L raw -> interp w = L ->
  _parse_response raw w = (Ret PyNone, warned w).
Proof.
  intros L raw w (H1 & H2 & H3) <-. unfold _parse_response. cbv zeta.
  rewrite H1, H2, H3. reflexivity.
Qed.

(** What an attempt lets pass is a [RecursionError] or a [ValueError], and
    leaves [_parse_response]. *)
Lemma parse_response_refused : forall L raw w,
  refused L raw -> interp w = L ->
  exists e, _parse_response raw w = (Raise e, w) /\ is_Exception e = true.
Proof.
  assert (Hk : forall L s e, try_loads L s = Some (Raise e) ->
            is_Exception e = true).
  { intros L s e H. apply try_loads_some in H as [_ [[v H]|[H|H]]];
      [discriminate H | injection H as -> | injection H as ->]; reflexivity. }
  intros L raw w [e [H1 | [(H1 & H2) | (H1 & H2 & H3)]]] <-;
    exists e; unfold _parse_response; cbv zeta.
  - rewrite H1. split; [reflexivity | eapply Hk, H1].
  - rewrite H1, H2. split; [reflexivity|].
    unfold try_fenced in H2.
    destruct (Re.search FENCE_RE raw); [eapply Hk, H2 | discriminate].
  - rewrite H1, H2, H3. split; [reflexivity|].
    unfold try_braces in H3.
    destruct (Re.search BRACES_RE raw); [eapply Hk, H3 | discriminate].
Qed.

(** A reply of 4400 digits is refused in the first attempt. *)
Lemma long_integer_refused : refused default_limits long_integer.
Proof.
  exists ValueError. left. unfold try_loads.
  rewrite loads_long_integer. reflexivity.
Qed.

(** A failing cycle returns normally, adds records of which one at least
    is a warning or an error, and leaves the pointer alone. *)
Lemma cycle_failure_caught : forall B tk w,
  cycle_failure (interp w) tk ->
  exists w1 records,
    cycle B tk w = (Ret tt, w1) /\
    logged w1 = logged w ++ records /\
    existsb is_alert records = true /\
    pointer w1 = pointer w /\ slept w1 = slept w /\ interp w1 = interp w.
Proof.
  intros B tk w [e Hc He | e Hc Hn Hr He | raw Hc Hn Hr Hu | raw Hc Hn Hr Hu];
    unfold cycle, analyze, try_except, bind, lift, logger;
    rewrite Hc; cbn [fst snd logged pointer slept screen interp].
  - rewrite He. cbn.
    eexists. eexists. split; [reflexivity|]. cbn.
    rewrite <- app_assoc. repeat (split; [reflexivity|]). reflexivity.
  - rewrite Hn, Hr, He. cbn.
    eexists. eexists. split; [reflexivity|]. cbn.
    repeat rewrite <- app_assoc. repeat (split; [reflexivity|]). reflexivity.
  - rewrite Hn, Hr.
    rewrite (parse_response_unparseable _ raw _ Hu) by reflexivity. cbn.
    eexists. eexists. split; [reflexivity|]. cbn.
    repeat rewrite <- app_assoc. repeat (split; [reflexivity|]). reflexivity.
  - rewrite Hn, Hr.
    match goal with |- context [_parse_response raw ?w'] =>
      destruct (parse_response_refused _ raw w' Hu eq_refl) as (e & -> & He)
    end.
    rewrite He. cbn.
    eexists. eexists. split; [reflexivity|]. cbn.
    repeat rewrite <- app_assoc. repeat (split; [reflexivity|]). reflexivity.
Qed.

(** C7. A cycle that fails (the screenshot, the request to the model, a
    reply without a document, or a reply that the interpreter refuses to
    decode) does not end the loop: the failure is caught and logged, nothing
    is sent to the pointer, and while the engine stays running the loop
    takes the thirty naps of the interval and goes on with the next
    cycle. *)
Theorem loop_survives_cycle_failure : forall B n env t w,
  (forall i, running_at (env t) i = true) ->
  cycle_failure (interp w) (env t) ->
  exists w1 records,
    cycle B (env t) w = (Ret tt, w1) /\
    logged w1 = logged w ++ records /\
    existsb is_alert records = true /\
    pointer w1 = pointer w /\
    _loop B (S n) env t w = _loop B n env (S t) (asleep 30 w1).
Proof.
  intros B n env t w Hrun Hfail.
  destruct (cycle_failure_caught B (env t) w Hfail)
    as (w1 & records & Hc & Hl & Ha & Hp & _).
  exists w1, records. repeat (split; [assumption|]).
  cbn [_loop]. rewrite Hrun, Hc.
  change (Z.to_nat (ANALYSIS_INTERVAL * 10 / 1000)) with 30%nat.
  rewrite wait_running by exact Hrun. reflexivity.
Qed.

Lemma loop_survives_cycle_failure_witness :
  exists w1 records,
    cycle sample_builtins prose_tick world0 = (Ret tt, w1) /\
    logged w1 = logged world0 ++ records /\
    existsb is_alert records = true /\
    pointer w1 = pointer world0 /\
    _loop sample_builtins 1 (fun _ => prose_tick) 0 world0 =
    _loop sample_builtins 0 (fun _ => prose_tick) 1 (asleep 30 w1).
Proof.
  apply (loop_survives_cycle_failure sample_builtins 0 (fun _ => prose_tick)
           0%nat world0).
  - intros i. reflexivity.
  - apply (unparseable_reply (interp world0) prose_tick
             (text "I cannot see the screen."));
      try reflexivity.
    repeat split; vm_compute; reflexivity.
Defined.

(** A run in which every cycle fails and the engine stays running is still
    looping after any number of cycles, with thirty naps taken per cycle. *)
Lemma loop_keeps_looping : forall B env n t w,
  (forall k i, running_at (env k) i = true) ->
  (forall k, cycle_failure (interp w) (env k)) ->
  exists w', _loop B n env t w = Looping w' /\
    slept w' = (30 * n + slept w)%nat /\ pointer w' = pointer w.
Proof.
  intros B env n. induction n as [|n IH]; intros t w Hrun Hfail.
  - exists w. repeat split.
  - destruct (cycle_failure_caught B (env t) w (Hfail t))
      as (w1 & records & Hc & _ & _ & Hp & Hs & Hi).
    destruct (IH (S t) (asleep 30 w1) Hrun) as (w' & Hl & Hs' & Hp').
    { cbn [asleep interp]. rewrite Hi. exact Hfail. }
    exists w'. cbn [_loop]. rewrite Hrun, Hc.
    change (Z.to_nat (ANALYSIS_INTERVAL * 10 / 1000)) with 30%nat.
    rewrite wait_running by apply Hrun. split; [exact Hl|].
    cbn [asleep slept pointer] in Hs', Hp'. split; [lia | congruence].
Qed.

(** * Statement about the status indicator *)

(** [_update_icon] puts the icon in step with the engine. *)
Lemma update_icon_current : forall a,
  indicator_current (TrayApp._update_icon a) = true.
Proof.
  intros a. unfold TrayApp._update_icon, indicator_current.
  destruct (icon a) as [i|] eqn:Ei.
  - destruct (is_running (the_engine a)) eqn:E;
      cbn [icon the_engine]; rewrite E; reflexivity.
  - rewrite Ei. reflexivity.
Qed.

(** The handlers of the tray menu leave the icon in step with the engine. *)
Lemma menu_keeps_indicator_current : forall t a w a' w',
  (t = MenuStart \/ exists exited, t = MenuStop exited) ->
  fire t a w = (Ret a', w') -> indicator_current a' = true.
Proof.
  intros t a w a' w' [-> | [exited ->]]; cbn [fire];
    unfold TrayApp._on_start, TrayApp._on_stop, bind, ret.
  - destruct (start (the_engine a) w) as [[e|x] w1]; intros H;
      [injection H as <- _; apply update_icon_current | discriminate].
  - destruct (stop exited (the_engine a) w) as [[e|x] w1]; intros H;
      [injection H as <- _; apply update_icon_current | discriminate].
Qed.

(** C8, at the hot key Ctrl+M pressed while the tray shows the idle
    engine.  The engine starts and the icon stays the red one of the stopped
    state: the handlers of the hot keys start and stop the engine without
    the icon update that the handlers of the tray menu make. *)
Theorem hotkey_start_leaves_icon_stale :
  exists a w,
    fire HotkeyStart
      (TrayApp.run {| the_engine := new_engine; icon := None |}) world0
    = (Ret a, w) /\
    is_running (the_engine a) = true /\
    icon a = Some RED /\
    indicator_current a = false.
Proof.
  eexists. eexists. split; [reflexivity|].
  split; [reflexivity|]. split; reflexivity.
Qed.

(** * Statement about the encoding of images *)

(** C9. [encode_image] leaves the image it is given as it was: the result
    is the encoding of the downscaled copy, and every image of the store
    before the call, the argument among them, is unchanged after it. *)
Theorem encode_image_keeps_input :
  forall thumbnail_of jpeg_base64 (image : nat) (h : gmap nat Image) img,
  h !! image = Some img ->
  exists b64 h',
    encode_image thumbnail_of jpeg_base64 image h = Some (b64, h') /\
    b64 = jpeg_base64 (thumbnail_of img SCREENSHOT_MAX_SIZE) SCREENSHOT_QUALITY /\
    h' !! image = Some img /\
    (forall r, is_Some (h !! r) -> h' !! r = h !! r).
Proof.
  intros th jb image h img Hi.
  unfold encode_image, Image_copy. rewrite Hi.
  set (r' := fresh (dom h)).
  assert (Hfresh : h !! r' = None)
    by (apply not_elem_of_dom, is_fresh).
  unfold Image_thumbnail. rewrite lookup_insert_eq.
  unfold Image_save_b64. rewrite lookup_insert_eq.
  eexists. eexists. split; [reflexivity|]. split; [reflexivity|].
  assert (Hkeep : forall r, is_Some (h !! r) ->
            <[r' := th img SCREENSHOT_MAX_SIZE]> (<[r' := img]> h) !! r = h !! r).
  { intros r [x Hx].
    assert (r' <> r) by (intros ->; congruence).
    rewrite !lookup_insert_ne by assumption. reflexivity. }
  split; [|exact Hkeep].
  rewrite Hkeep by eauto. exact Hi.
Qed.

Lemma encode_image_keeps_input_witness :
  exists b64 h',
    encode_image sample_thumbnail sample_jpeg 0 {[ 0%nat := sample_image ]}
      = Some (b64, h') /\
    b64 = sample_jpeg (sample_thumbnail sample_image SCREENSHOT_MAX_SIZE)
            SCREENSHOT_QUALITY /\
    h' !! 0%nat = Some sample_image /\
    (forall r, is_Some (({[ 0%nat := sample_image ]} : gmap nat Image) !! r) ->
       h' !! r = ({[ 0%nat := sample_image ]} : gmap nat Image) !! r).
Proof.
  apply (encode_image_keeps_input sample_thumbnail sample_jpeg 0%nat
           {[ 0%nat := sample_image ]} sample_image).
  reflexivity.
Defined.

(** By contrast [encode_image_to_base64] of open.py downscales the image it
    is given. *)
Lemma encode_image_to_base64_resizes_input :
  forall thumbnail_of jpeg_base64 (image : nat) (h : gmap nat Image) img,
  h !! image = Some img ->
  exists b64 h',
    encode_image_to_base64 thumbnail_of jpeg_base64 image h = Some (b64, h') /\
    h' !! image = Some (thumbnail_of img (800, 800)%Z).
Proof.
  intros th jb image h img Hi.
  unfold encode_image_to_base64, Image_thumbnail, Image_save_b64.
  rewrite Hi, lookup_insert_eq.
  eexists. eexists. split; [reflexivity|]. apply lookup_insert_eq.
Qed.
